(** * analyze.py: resampling and grouped statistics of tick-level trades

    A shallow embedding of [src/analyze.py].  A pandas DataFrame is a list of
    rows in table order.  A [datetime.datetime] is the number of microseconds
    since an arbitrary epoch (the resolution of the Python type), a
    [datetime.timedelta] is a signed number of microseconds; both are [Z].
    Prices are exact rationals [Qc]: the decimal numbers the input file
    holds.  The rounding of binary floating point is not modelled.  A NaN
    (or NaT) cell is [None].

    Python exceptions are the [Err] results of a small error monad.  The
    [while] loops of [sample] run on fuel: the fuel bounds the number of
    times a loop body is entered, and a loop that needs more reports
    [OutOfFuel]. *)

From Stdlib Require Import ZArith QArith Qcanon Qround Lia Lqa List String.
From stdpp Require Import base tactics option list numbers sorting strings.

Local Open Scope Z_scope.

(** ** Exceptions and loops *)

Inductive error : Type :=
  | IndexError   (* positional access past the end of a table *)
  | KeyError     (* label access to a row that does not exist *)
  | OutOfFuel.   (* the model's loop bound was reached *)

Inductive result (A : Type) : Type :=
  | Ok (a : A)
  | Err (e : error).
Arguments Ok {A} a.
Arguments Err {A} e.

(** The monad of computations that may raise; [x ← m; k] runs [m] and
    hands its value to [k], an exception of [m] is passed on. *)
#[global] Instance result_ret : MRet result := λ A a, Ok a.
#[global] Instance result_bind : MBind result := λ A B k m,
  match m with
  | Ok a => k a
  | Err e => Err e
  end.

(** [while cond: body], entered at most [fuel] times. *)
Fixpoint while {S : Type} (fuel : nat) (cond : S → result bool)
    (body : S → result S) (s : S) {struct fuel} : result S :=
  match cond s with
  | Err e => Err e
  | Ok false => Ok s
  | Ok true =>
      match fuel with
      | O => Err OutOfFuel
      | Datatypes.S fuel' =>
          match body s with
          | Err e => Err e
          | Ok s' => while fuel' cond body s'
          end
      end
  end.

(** ** The resampler [sample] *)

(** One row of the frame handed to [sample]: the [date_time_col] cell and
    the tuple [A] of the [data_cols] cells. *)
Abbreviation srow A := (Z * A)%type.

Section Sample.
Context {A : Type}.

(** [df.irow(i)] *)
Definition irow {B : Type} (df : list B) (i : nat) : result B :=
  match df !! i with
  | Some r => Ok r
  | None => Err IndexError
  end.

(** [df[date_time_col].min()] and [.max()]; NaT on an empty column. *)
Definition col_min (df : list (srow A)) : option Z :=
  match df with
  | [] => None
  | r :: df' => Some (foldl Z.min r.1 (map fst df'))
  end.

Definition col_max (df : list (srow A)) : option Z :=
  match df with
  | [] => None
  | r :: df' => Some (foldl Z.max r.1 (map fst df'))
  end.

(** The variables the loops of [sample] update: the sampling time [t],
    the cursor [i], the last value seen [last_dict] and the output columns
    [temp_dict], kept as a list of rows. *)
Record sample_state : Type := SampleState {
  st_t : Z;
  st_i : nat;
  st_last : A;
  st_out : list (srow A)
}.

(** The inner loop, lines 75-78:
    [while t > df.irow(i)[date_time_col]: last_dict = df.irow(i); i += 1] *)
Definition inner_cond (df : list (srow A)) (t : Z) (c : nat * A) : result bool :=
  r ← irow df c.1 ; Ok (bool_decide (t > r.1)).

Definition inner_body (df : list (srow A)) (c : nat * A) : result (nat * A) :=
  r ← irow df c.1 ; Ok (Datatypes.S c.1, r.2).

(** The outer loop, lines 73-81. *)
Definition outer_cond (t_max : Z) (s : sample_state) : result bool :=
  Ok (bool_decide (st_t s < t_max)).

Definition outer_body (fuel : nat) (df : list (srow A)) (delta : Z)
    (s : sample_state) : result sample_state :=
  c ← while fuel (inner_cond df (st_t s)) (inner_body df) (st_i s, st_last s) ;
  Ok (SampleState (st_t s + delta) c.1 c.2 (st_out s ++ [(st_t s, c.2)])).

(** [sample(df, delta, date_time_col, *data_cols)] *)
Definition sample (fuel : nat) (df : list (srow A)) (delta : Z)
    : result (list (srow A)) :=
  let t_min := col_min df in
  let t_max := col_max df in
  r0 ← irow df 0 ;
  match t_min, t_max with
  | Some t_min, Some t_max =>
      s ← while fuel (outer_cond t_max) (outer_body fuel df delta)
            (SampleState t_min 1 r0.2 []) ;
      Ok (st_out s)
  | _, _ => Ok []
  end.

(** *** Notions used to state what [sample] returns *)

(** The rows are in ascending order of their timestamps, equal
    timestamps allowed. *)
Definition ascending (df : list (srow A)) : Prop := Sorted (λ a b, a.1 ≤ b.1) df.

(** The longest prefix of [l] whose timestamps are strictly below [t]:
    the rows the cursor passes at sampling time [t]. *)
Fixpoint take_below (t : Z) (l : list (srow A)) : list (srow A) :=
  match l with
  | [] => []
  | r :: l' => if bool_decide (t > r.1) then r :: take_below t l' else []
  end.

(** The data of the last row of [l], or [d] when [l] is empty. *)
Definition last_data (d : A) (l : list (srow A)) : A :=
  match last l with
  | Some r => r.2
  | None => d
  end.

(** The sampling instants [t, t + delta, ...], [n] of them. *)
Fixpoint grid (t delta : Z) (n : nat) : list Z :=
  match n with
  | O => []
  | Datatypes.S m => t :: grid (t + delta) delta m
  end.

(** The quotient [a / b] rounded up, for [0 < b]. *)
Definition ceil_div (a b : Z) : Z := (a + b - 1) / b.

Definition grid_length (t_min t_max delta : Z) : nat :=
  Z.to_nat (ceil_div (t_max - t_min) delta).

(** The last row of the table among those with a timestamp strictly
    before [u]. *)
Definition latest_before (u : Z) (df : list (srow A)) : option (srow A) :=
  last (filter (λ r, r.1 < u) df).

(** The last row of the table among those with a timestamp at or before
    [u]: the row the forward fill of the specification reads. *)
Definition latest_at_or_before (u : Z) (df : list (srow A)) : option (srow A) :=
  last (filter (λ r, r.1 ≤ u) df).
End Sample.

(** ** Columns and their statistics (pandas) *)

Local Open Scope Qc_scope.

(** [s[s.notnull()]]: the cells that are not NaN, in order. *)
Definition dropna {B : Type} (s : list (option B)) : list B := omap id s.

(** [s.diff()]: the first cell is NaN, every other cell is the value minus
    the value of the row before. *)
Definition diff {B : Type} (sub : B → B → B) (s : list B) : list (option B) :=
  match s with
  | [] => []
  | _ :: s' => None :: zip_with (λ cur prev, Some (sub cur prev)) s' s
  end.

(** The sum of a column. *)
Definition Qcsum (s : list Qc) : Qc := foldr Qcplus 0 s.
Definition Zsum (s : list Z) : Z := foldr Z.add 0%Z s.

Definition Qc_of_nat (n : nat) : Qc := Qc_of_Z (Z.of_nat n).

(** [s.max()], [s.min()], [s.mean()]: NaN on a column without values. *)
Definition col_fold {B : Type} (f : B → B → B) (s : list B) : option B :=
  match s with
  | [] => None
  | x :: s' => Some (foldl f x s')
  end.

Definition mean (s : list Qc) : option Qc :=
  match s with
  | [] => None
  | _ => Some (Qcsum s / Qc_of_nat (length s))
  end.

(** The sample variance (one degree of freedom removed), the square of
    [s.std()]: NaN with fewer than two values. *)
Definition var (s : list Qc) : option Qc :=
  if bool_decide (length s ≤ 1)%nat then None
  else
    let m := Qcsum s / Qc_of_nat (length s) in
    Some (Qcsum ((λ x, (x - m) * (x - m)) <$> s) / Qc_of_nat (length s - 1)).

(** Interpolation at the fractional position [idx] of the sorted values
    [v]: the value at [floor idx] when [idx] is whole, otherwise that value
    plus the fraction of the step to the next one. *)
Definition score_at (v : list Qc) (x0 : Qc) (idx : Qc) : Qc :=
  let lo := Z.to_nat (Qfloor idx) in
  let frac := idx - Qc_of_nat lo in
  let a := nth lo v x0 in
  if decide (frac = 0) then a
  else a + (nth (S lo) v x0 - a) * frac.

(** [s.quantile(q)] for [0 ≤ q ≤ 1]: linear interpolation between the order
    statistics around position [(n-1)*q] (method R-7); NaN on a column
    without values. *)
Definition quantile (s : list Qc) (q : Qc) : option Qc :=
  let v := merge_sort Qcle s in
  match v with
  | [] => None
  | x0 :: _ => Some (score_at v x0 (Qc_of_nat (length v - 1) * q))
  end.

(** [s.median()]: the middle value, or the mean of the two middle values. *)
Definition median (s : list Qc) : option Qc :=
  let v := merge_sort Qcle s in
  match v with
  | [] => None
  | x0 :: _ =>
      let n := length v in
      if Nat.even n then Some ((nth (n / 2 - 1) v x0 + nth (n / 2) v x0) / 2)
      else Some (nth (n / 2) v x0)
  end.

(** [len(s[s < thr])] and [sum(s < thr)]: the number of values strictly
    below the threshold; a comparison with NaN is false. *)
Definition count_below (s : list Qc) (thr : option Qc) : nat :=
  match thr with
  | None => 0%nat
  | Some x => length (filter (λ v, v < x) s)
  end.

(** ** The table and its day groups *)

(** One row of the table after line 155: the columns the analysis reads.
    [trade_date_time] is the instant that [strptime] parses from
    [trade_date] and [trade_time]; the parsing itself is outside the
    model. *)
Record trade : Type := Trade {
  trade_date : string;
  trade_date_time : Z;
  trade_price : Qc;
  trade_quantity : Z
}.

Definition string_le (a b : string) : Prop := String.leb a b = true.
#[global] Instance string_le_dec : RelDecision string_le.
Proof. intros a b. unfold string_le. apply _. Defined.

(** [df.groupby(key)]: one group per distinct key, the groups in ascending
    order of the key, the rows of a group in table order. *)
Definition groupby {B : Type} (key : B → string) (df : list B)
    : list (string * list B) :=
  (λ k, (k, filter (λ r, key r = k) df))
    <$> merge_sort string_le (remove_dups (key <$> df)).

(** [timedelta.total_seconds()] *)
Definition total_seconds (d : Z) : Qc := Qc_of_Z d / Qc_of_Z 1000000.

(** [int(x)]: truncation towards zero. *)
Definition int (x : Qc) : Z := Z.quot (Qnum x) (Zpos (Qden x)).

(** [datetime.timedelta(minutes=3)] *)
Definition three_minutes : Z := 180000000%Z.

(** Lines 160-166: the interarrival times of each day, in seconds, without
    the NaT that opens each day.  The days are stacked in the order of
    their keys; the statistics taken of the column (quantiles, counts) do
    not depend on the order of its cells. *)
Definition s_inter_time (df : list trade) : list Qc :=
  total_seconds <$>
    dropna (mjoin ((λ g, diff Z.sub (trade_date_time <$> g.2))
                     <$> groupby trade_date df)).

(** Lines 188-191: [sample] applied to each day, the results stacked. *)
Definition df_trade_price_res (fuel : nat) (df : list trade)
    : result (list (Z * (Qc * string))) :=
  days ← mapM (λ g, sample fuel
                 ((λ r, (trade_date_time r, (trade_price r, trade_date r)))
                    <$> g.2)
                 three_minutes)
           (groupby trade_date df) ;
  Ok (mjoin days).

(** Lines 197-199: per day of the resampled table,
    [x['trade_price'].diff() / x['trade_price']]. *)
Definition returns_of_day (p : list Qc) : list (option Qc) :=
  zip_with (λ d x, (λ n, n / x) <$> d) (diff Qcminus p) p.

Definition s_returns (res : list (Z * (Qc * string))) : list (option Qc) :=
  mjoin ((λ g, returns_of_day ((λ r, r.2.1) <$> g.2))
           <$> groupby (λ r, r.2.2) res).

(** [df.ix[0]]: the row labelled 0, the first row of the table. *)
Definition ix0 {B : Type} (df : list B) : result B :=
  match df with
  | [] => Err KeyError
  | r :: _ => Ok r
  end.

Definition Qc_max (x y : Qc) : Qc := if decide (x ≤ y) then y else x.
Definition Qc_min (x y : Qc) : Qc := if decide (y ≤ x) then y else x.

(** The builtin [max] and [min] applied to a day's prices; a day group is
    never empty, so that [ValueError] does not arise and an empty group is
    given the value 0. *)
Definition py_max (s : list Qc) : Qc := default 0 (col_fold Qc_max s).
Definition py_min (s : list Qc) : Qc := default 0 (col_fold Qc_min s).

(** ** The analysis *)

(** The local variables of [analyze] that hold the statistics. *)
Record report : Type := Report {
  N_trade_price_q1 : nat;
  N_trade_price_q2 : nat;
  N_trade_price_q3 : nat;
  max_trade_price : option Qc;
  min_trade_price : option Qc;
  mean_trade_price : option Qc;
  N_inter_time_q1 : nat;
  N_inter_time_q2 : nat;
  N_inter_time_q3 : nat;
  mean_daily_vol : option Qc;
  max_daily_vol : option Z;
  min_daily_vol : option Z;
  median_daily_vol : option Qc;
  std_trade_price : option Qc;
  mean_returns : option Qc;
  std_returns : option Qc;
  daily_price_max_list : list Z;
  daily_price_min_list : list Z
}.

Section Analyze.
(** The square root of the floating-point library, which the standard
    deviations go through; the analysis is studied for any such
    function. *)
Variable sqrt : Qc → Qc.

(** [s.std()] *)
Definition std (s : list Qc) : option Qc := sqrt <$> var s.

(** The body of [analyze] up to its [return]: every statistic it
    computes, in the order of the source. *)
Definition analyze_locals (fuel : nat) (df : list trade) : result report :=
  let price := trade_price <$> df in
  let N_trade_price_q1 := count_below price (quantile price (Q2Qc 0.25)) in
  let N_trade_price_q2 := count_below price (quantile price (Q2Qc 0.50)) in
  let N_trade_price_q3 := count_below price (quantile price (Q2Qc 0.75)) in
  let max_trade_price := col_fold Qc_max price in
  let min_trade_price := col_fold Qc_min price in
  let mean_trade_price := mean price in
  let inter := s_inter_time df in
  let N_inter_time_q1 := count_below inter (quantile inter (Q2Qc 0.25)) in
  let N_inter_time_q2 := count_below inter (quantile inter (Q2Qc 0.50)) in
  let N_inter_time_q3 := count_below inter (quantile inter (Q2Qc 0.75)) in
  let s_daily_vol :=
    (λ g, Zsum (trade_quantity <$> g.2)) <$> groupby trade_date df in
  let mean_daily_vol := mean (Qc_of_Z <$> s_daily_vol) in
  let max_daily_vol := col_fold Z.max s_daily_vol in
  let min_daily_vol := col_fold Z.min s_daily_vol in
  let median_daily_vol := median (Qc_of_Z <$> s_daily_vol) in
  res ← df_trade_price_res fuel df ;
  let std_trade_price := std ((λ r, r.2.1) <$> res) in
  let returns := dropna (s_returns res) in
  let mean_returns := (λ m, m * Qc_of_Z 10000) <$> mean returns in
  let std_returns := (λ d, d * Qc_of_Z 10000) <$> std returns in
  let mean_trade_price := mean price in
  let day_max := (λ g, py_max (trade_price <$> g.2)) <$> groupby trade_date df in
  first ← ix0 df ;
  let daily_price_max_list :=
    (λ x, 10000 * int x)%Z <$> ((λ m, m - trade_price first) <$> day_max) in
  let day_min := (λ g, py_min (trade_price <$> g.2)) <$> groupby trade_date df in
  first' ← ix0 df ;
  let daily_price_min_list :=
    (λ x, 10000 * int x)%Z <$> ((λ m, m - trade_price first') <$> day_min) in
  Ok (Report N_trade_price_q1 N_trade_price_q2 N_trade_price_q3
        max_trade_price min_trade_price mean_trade_price
        N_inter_time_q1 N_inter_time_q2 N_inter_time_q3
        mean_daily_vol max_daily_vol min_daily_vol median_daily_vol
        std_trade_price mean_returns std_returns
        daily_price_max_list daily_price_min_list).

(** [analyze(file_name)], from the table that [read_csv] and the join of
    line 155 build: it computes the statistics and then executes
    [return df]. *)
Definition analyze (fuel : nat) (df : list trade) : result (list trade) :=
  _ ← analyze_locals fuel df ;
  Ok df.
End Analyze.

(** ** Notions used to state what the differencing returns *)

(** The differences of consecutive values: the value of each row but the
    first minus the value of the row before. *)
Definition gaps {B : Type} (sub : B → B → B) (s : list B) : list B :=
  zip_with sub (tail s) s.

(** The returns of a day of prices [p0, p1, ...]: [(pi - pi-1) / pi] for
    every sample but the first. *)
Definition day_returns (p : list Qc) : list Qc :=
  zip_with (λ cur prev, (cur - prev) / cur) (tail p) p.

(** ** Notions used to state when the analysis returns *)

(** The days of a table are fit for resampling with [fuel] when each is
    sorted by timestamp and [fuel] covers its rows and its sampling grid. *)
Definition day_fits (fuel : nat) (rows : list trade) : Prop :=
  ascending ((λ r, (trade_date_time r, (trade_price r, trade_date r))) <$> rows)
  ∧ (length rows ≤ fuel)%nat
  ∧ ∀ r0 rn, head rows = Some r0 → last rows = Some rn →
      (grid_length (trade_date_time r0) (trade_date_time rn) three_minutes
       ≤ fuel)%nat.

(** ** Tables used in the examples *)

(** The scenario of the specification: three ticks at 09:00:00, 09:00:30
    and 09:01:15, as microseconds from the first. *)
Definition three_ticks : list (srow Z) :=
  [(0, 100); (30000000, 101); (75000000, 102)]%Z.

(** Three ticks a minute apart. *)
Definition minute_ticks : list (srow Z) :=
  [(0, 100); (60000000, 101); (120000000, 102)]%Z.

Definition one_minute : Z := 60000000%Z.

(** Two days of trades; the second day has a single trade. *)
Definition two_days : list trade :=
  [ Trade "09/03/2012" 0 (Q2Qc 100) 5;
    Trade "09/03/2012" 100000000 (Q2Qc 100.5) 7;
    Trade "09/03/2012" 400000000 (Q2Qc 99) 1;
    Trade "09/04/2012" 86400000000 (Q2Qc 101) 2 ].

(** One day whose prices stay within half a unit of the first price. *)
Definition half_unit_day : list trade :=
  [ Trade "09/03/2012" 0 (Q2Qc 100) 1;
    Trade "09/03/2012" 1000000 (Q2Qc 100.5) 1;
    Trade "09/03/2012" 2000000 (Q2Qc 99.5) 1 ].

(** ** [rount_ceil_minute] *)

Local Open Scope Z_scope.

(** The outcome of an expression that reads attributes of an object: a
    value, or the [AttributeError] of a name the object does not have. *)
Inductive attr (A : Type) : Type :=
  | Got (a : A)
  | AttributeError.
Arguments Got {A} a.
Arguments AttributeError {A}.

#[global] Instance attr_ret : MRet attr := λ A a, Got a.
#[global] Instance attr_bind : MBind attr := λ A B k m,
  match m with
  | Got a => k a
  | AttributeError => AttributeError
  end.

(** [d.name] for a [datetime.datetime] [d], counted in microseconds from an
    epoch that is a whole minute: the fields below the minute.  Any other
    name among those the function reads is not an attribute. *)
Definition datetime_attr (d : Z) (name : string) : attr Z :=
  if decide (name = "second") then Got ((d / 1000000) mod 60)
  else if decide (name = "microsecond") then Got (d mod 1000000)
  else AttributeError.

(** [datetime.timedelta(seconds=s, microseconds=us, minutes=m)] *)
Definition timedelta (s us m : Z) : Z := s * 1000000 + us + m * 60000000.

(** [rount_ceil_minute(d)], lines 21-23.  The keyword arguments are
    evaluated in the order written; [or] evaluates its right operand only
    when the left one is false. *)
Definition rount_ceil_minute (d : Z) : attr Z :=
  s ← datetime_attr d "second" ;
  us ← datetime_attr d "microsecond" ;
  s' ← datetime_attr d "second" ;
  test ← (if bool_decide (s' ≠ 0) then Got true
          else m ← datetime_attr d "microsend" ; Got (bool_decide (m ≠ 0))) ;
  Got (d - timedelta s us (if test : bool then -1 else 0)).

(** ** Notions used to state what the resampling of a table returns *)

(** The length of the three-minute grid of a day: from its first to its
    last timestamp. *)
Definition day_grid_length (rows : list trade) : nat :=
  match head rows, last rows with
  | Some r0, Some rn =>
      grid_length (trade_date_time r0) (trade_date_time rn) three_minutes
  | _, _ => 0%nat
  end.

(** ** The script, lines 214-218 *)

(** How a run of the script ends: it reaches the end of the file, it calls
    [sys.exit(status)], or an exception is not caught. *)
Inductive ending : Type :=
  | Finished
  | SysExit (status : Z)
  | Uncaught (e : error).

(** A run of the script: the lines printed and the way it ends. *)
Record run : Type := Run {
  stdout : list string;
  run_ending : ending
}.

Section Script.
Variable sqrt : Qc → Qc.

(** Lines 118-155: the table that [read_csv] and the parsing of the
    timestamps build from the file of a given name, or the exception they
    raise. *)
Variable read_table : string → result (list trade).

(** [analyze(file_name)] with its reading of the file. *)
Definition analyze_file (fuel : nat) (file_name : string)
    : result (list trade) :=
  df ← read_table file_name ;
  analyze sqrt fuel df.

(** The script run with the argument vector [argv] ([sys.argv]: the name
    of the script, then the arguments). *)
Definition script (fuel : nat) (argv : list string) : run :=
  if decide (length argv = 1%nat)
  then Run ["need to specify input files"%string] (SysExit 0)
  else
    match file_name ← irow argv 1 ; analyze_file fuel file_name with
    | Ok _ => Run [] Finished
    | Err e => Run [] (Uncaught e)
    end.
End Script.

(** * The resampler: what [sample] returns *)

Local Open Scope Z_scope.

Section SampleFacts.
Context {A : Type}.
Implicit Types (df rest l : list (srow A)) (r : srow A) (t delta : Z).

Lemma last_data_cons d r l : last_data d (r :: l) = last_data r.2 l.
Proof.
  unfold last_data. destruct l as [|r' l]; [done|].
  rewrite last_cons. by destruct (last (r' :: l)).
Qed.

Lemma take_below_split t0 t l :
  t0 ≤ t →
  take_below t l
  = take_below t0 l ++ take_below t (drop (length (take_below t0 l)) l).
Proof.
  intros Ht. induction l as [|r l IH]; [done|]. simpl.
  destruct (decide (t0 > r.1)) as [H0|H0].
  - rewrite (bool_decide_true (t0 > _)), bool_decide_true by lia.
    simpl. by rewrite <- IH.
  - by rewrite (bool_decide_false (t0 > _)) by done.
Qed.

Lemma last_data_app d l1 l2 :
  last_data d (l1 ++ l2) = last_data (last_data d l1) l2.
Proof.
  revert d. induction l1 as [|r l1 IH]; intros d; [done|].
  simpl. rewrite !last_data_cons. apply IH.
Qed.

Lemma inner_loop_run df t l : ∀ pre d fuel,
  df = pre ++ l →
  (∃ r, r ∈ l ∧ t ≤ r.1) →
  (length (take_below t l) ≤ fuel)%nat →
  while fuel (inner_cond df t) (inner_body df) (length pre, d)
  = Ok ((length pre + length (take_below t l))%nat,
        last_data d (take_below t l)).
Proof.
  induction l as [|r l IH]; intros pre d fuel Hdf [w [Hw Hle]] Hfuel.
  - by apply elem_of_nil in Hw.
  - assert (Hr : irow df (length pre) = Ok r).
    { unfold irow. subst df. by rewrite list_lookup_middle. }
    simpl in *. case_bool_decide as Hgt.
    + destruct fuel as [|fuel]; [simpl in Hfuel; lia|].
      simpl. unfold inner_cond at 1, inner_body at 1. simpl. rewrite Hr. simpl.
      rewrite bool_decide_true by done.
      specialize (IH (pre ++ [r]) r.2 fuel).
      rewrite length_app in IH. simpl in IH.
      replace (length pre + 1)%nat with (S (length pre)) in IH by lia.
      rewrite IH.
      * rewrite last_data_cons. f_equal. f_equal. lia.
      * by rewrite <- app_assoc.
      * apply elem_of_cons in Hw as [->|Hw]; [lia|]. eauto.
      * simpl in Hfuel. lia.
    + destruct fuel; simpl; unfold inner_cond; simpl; rewrite Hr; simpl;
        rewrite bool_decide_false by done; f_equal; f_equal; lia.
Qed.

Lemma take_below_length t l : (length (take_below t l) ≤ length l)%nat.
Proof. induction l; simpl; [done|]. case_bool_decide; simpl; lia. Qed.

Lemma take_below_take t l : take (length (take_below t l)) l = take_below t l.
Proof.
  induction l as [|r l IH]; [done|]. simpl.
  case_bool_decide; simpl; [by rewrite IH|done].
Qed.

Lemma take_below_lt t l r : r ∈ take_below t l → r.1 < t.
Proof.
  induction l as [|r' l IH]; simpl; intros Hr.
  - by apply elem_of_nil in Hr.
  - case_bool_decide; [|by apply elem_of_nil in Hr].
    apply elem_of_cons in Hr as [->|Hr]; [lia|auto].
Qed.

Lemma ceil_div_step a b :
  0 < b → 0 < a →
  Z.to_nat (ceil_div a b) = S (Z.to_nat (ceil_div (a - b) b)).
Proof.
  intros Hb Ha. unfold ceil_div.
  replace (a + b - 1) with ((a - b + b - 1) + 1 * b) by lia.
  rewrite Z.div_add by lia.
  assert (0 ≤ (a - b + b - 1) / b) by (apply Z.div_pos; lia). lia.
Qed.

Lemma ceil_div_nonpos a b : 0 < b → a ≤ 0 → Z.to_nat (ceil_div a b) = 0%nat.
Proof.
  intros Hb Ha. unfold ceil_div.
  assert ((a + b - 1) / b ≤ 0); [|lia].
  apply Z.lt_succ_r. apply Z.div_lt_upper_bound; lia.
Qed.

Lemma outer_loop_run r0 rest delta t_max fuel :
  0 < delta →
  (length rest ≤ fuel)%nat →
  (∀ t, r0.1 ≤ t → t < t_max → ∃ w, w ∈ rest ∧ t ≤ w.1) →
  ∀ n f t t0 out,
    n = Z.to_nat (ceil_div (t_max - t) delta) →
    (n ≤ f)%nat →
    r0.1 ≤ t0 ≤ t →
    ∃ s',
      while f (outer_cond t_max) (outer_body fuel (r0 :: rest) delta)
        (SampleState t (S (length (take_below t0 rest)))
           (last_data r0.2 (take_below t0 rest)) out) = Ok s'
      ∧ st_out s'
        = out ++ ((λ u, (u, last_data r0.2 (take_below u rest)))
                    <$> grid t delta n).
Proof.
  intros Hdelta Hfuel Hlast. induction n as [|n IH]; intros f t t0 out Hn Hf Ht.
  - assert (¬ t < t_max) as Hge.
    { intros Hlt. rewrite (ceil_div_step (t_max - t) delta) in Hn by lia. done. }
    exists (SampleState t (S (length (take_below t0 rest)))
              (last_data r0.2 (take_below t0 rest)) out).
    split; [|by rewrite app_nil_r].
    destruct f; simpl; by rewrite bool_decide_false.
  - assert (t < t_max) as Hlt.
    { destruct (decide (t < t_max)); [done|].
      rewrite ceil_div_nonpos in Hn by lia. done. }
    destruct f as [|f]; [lia|].
    rewrite (ceil_div_step (t_max - t) delta) in Hn by lia.
    destruct (Hlast t ltac:(lia) Hlt) as (w & Hw & Hwt).
    pose proof (take_below_split t0 t rest ltac:(lia)) as Hsplit.
    set (c := length (take_below t0 rest)) in *.
    assert (Hinner :
      while fuel (inner_cond (r0 :: rest) t) (inner_body (r0 :: rest))
        (S c, last_data r0.2 (take_below t0 rest))
      = Ok (S (length (take_below t rest)),
            last_data r0.2 (take_below t rest))).
    { pose proof (take_below_take t0 rest) as Hpre.
      pose proof (take_below_length t0 rest) as Hc.
      fold c in Hpre, Hc.
      pose proof (inner_loop_run (r0 :: rest) t (drop c rest)
                    (r0 :: take c rest)
                    (last_data r0.2 (take_below t0 rest)) fuel) as Hrun.
      simpl in Hrun. rewrite length_take_le in Hrun by done.
      rewrite Hrun.
      - rewrite Hsplit, length_app, last_data_app. done.
      - by rewrite take_drop.
      - exists w. split; [|done].
        rewrite <- (take_drop c rest) in Hw.
        apply elem_of_app in Hw as [Hw|Hw]; [|done].
        rewrite Hpre in Hw. apply take_below_lt in Hw. lia.
      - trans (length (drop c rest)); [apply take_below_length|].
        rewrite length_drop. lia. }
    destruct (IH f (t + delta) t (out ++ [(t, last_data r0.2 (take_below t rest))]))
      as (s' & Hs' & Hout).
    + replace (t_max - (t + delta)) with (t_max - t - delta) by lia. lia.
    + lia.
    + lia.
    + exists s'. split.
      * simpl. rewrite bool_decide_true by done.
        unfold outer_body at 1. simpl. rewrite Hinner. simpl. exact Hs'.
      * rewrite Hout. simpl. by rewrite <- app_assoc.
Qed.

#[local] Instance time_le_trans : Transitive (λ a b : srow A, a.1 ≤ b.1).
Proof. intros a b c. lia. Qed.

Lemma ascending_cons r0 rest :
  ascending (r0 :: rest) → ascending rest ∧ Forall (λ r, r0.1 ≤ r.1) rest.
Proof.
  intros H. apply Sorted_StronglySorted in H; [|apply _].
  apply StronglySorted_inv in H as [H1 H2]. split; [|done].
  by apply StronglySorted_Sorted.
Qed.

Lemma filter_none t l :
  Forall (λ r, t ≤ r.1) l → filter (λ r : srow A, r.1 < t) l = [].
Proof.
  induction 1 as [|r l Hr _ IH]; [done|].
  rewrite filter_cons_False by lia. done.
Qed.

Lemma take_below_filter t l :
  ascending l → take_below t l = filter (λ r, r.1 < t) l.
Proof.
  induction l as [|r l IH]; intros Hl; [done|].
  apply ascending_cons in Hl as [Hl Hr]. simpl.
  case_bool_decide as Hgt.
  - rewrite filter_cons_True by lia. by rewrite IH.
  - rewrite filter_cons_False by lia. symmetry. apply filter_none.
    eapply Forall_impl; [exact Hr|]. simpl. lia.
Qed.

Lemma last_data_latest_before r0 rest u :
  ascending (r0 :: rest) →
  last_data r0.2 (take_below u rest)
  = (default r0 (latest_before u (r0 :: rest))).2.
Proof.
  intros Hdf. pose proof (ascending_cons _ _ Hdf) as [Hrest Hle].
  rewrite take_below_filter by done. unfold latest_before, last_data.
  destruct (decide (r0.1 < u)) as [Hu|Hu].
  - rewrite filter_cons_True by done. rewrite last_cons.
    by destruct (last (filter _ rest)).
  - rewrite filter_cons_False by done.
    rewrite filter_none; [done|].
    eapply Forall_impl; [exact Hle|]. simpl. lia.
Qed.

Lemma col_min_ascending r0 rest :
  ascending (r0 :: rest) → col_min (r0 :: rest) = Some r0.1.
Proof.
  intros [_ Hle]%ascending_cons. simpl. f_equal.
  induction Hle as [|r l Hr _ IH]; [done|].
  simpl. by rewrite Z.min_l.
Qed.

Lemma col_max_ascending df rn :
  ascending df → last df = Some rn → col_max df = Some rn.1.
Proof.
  destruct df as [|r0 rest]; [done|]. revert r0.
  induction rest as [|r1 rest IH]; intros r0 Hdf Hlast.
  - simpl in *. by simplify_eq.
  - rewrite last_cons_cons in Hlast.
    pose proof (ascending_cons _ _ Hdf) as [Hrest Hle].
    apply Forall_cons in Hle as [Hle _].
    specialize (IH r1 Hrest Hlast). simpl in *.
    by rewrite Z.max_r.
Qed.

(** What [sample] returns on a sorted day. *)
Lemma sample_ascending fuel r0 rest rn delta :
  ascending (r0 :: rest) →
  last (r0 :: rest) = Some rn →
  0 < delta →
  (grid_length r0.1 rn.1 delta ≤ fuel)%nat →
  (length rest ≤ fuel)%nat →
  sample fuel (r0 :: rest) delta
  = Ok ((λ u, (u, (default r0 (latest_before u (r0 :: rest))).2))
          <$> grid r0.1 delta (grid_length r0.1 rn.1 delta)).
Proof.
  intros Hdf Hlast Hdelta Hfuel1 Hfuel2. unfold sample.
  rewrite (col_min_ascending _ _ Hdf), (col_max_ascending _ _ Hdf Hlast).
  simpl.
  pose proof (ascending_cons _ _ Hdf) as [Hrest Hle].
  destruct (outer_loop_run r0 rest delta rn.1 fuel Hdelta Hfuel2) with
    (n := grid_length r0.1 rn.1 delta) (f := fuel) (t := r0.1) (t0 := r0.1)
    (out := @nil (srow A)) as (s' & Hs' & Hout); [|done|done|lia|].
  - intros t Ht1 Ht2. exists rn. split; [|lia].
    destruct rest as [|r1 rest]; [simpl in Hlast; simplify_eq; lia|].
    rewrite last_cons_cons in Hlast. by apply last_Some_elem_of.
  - assert (Hempty : take_below r0.1 rest = []).
    { rewrite take_below_filter by done. apply filter_none.
      eapply Forall_impl; [exact Hle|]. simpl. lia. }
    rewrite Hempty in Hs'. simpl in Hs'.
    unfold last_data in Hs'. simpl in Hs'. rewrite Hs'. simpl.
    rewrite Hout. simpl. f_equal.
    apply list_fmap_ext. intros i u _.
    by rewrite last_data_latest_before.
Qed.

Lemma grid_length_bounds t_min t_max delta :
  0 < delta → t_min ≤ t_max →
  let n := Z.of_nat (grid_length t_min t_max delta) in
  t_max - t_min ≤ n * delta < t_max - t_min + delta.
Proof.
  intros Hd Hle n. subst n. unfold grid_length, ceil_div.
  set (a := t_max - t_min + delta - 1).
  assert (0 ≤ a / delta) by (apply Z.div_pos; lia).
  rewrite Z2Nat.id by done.
  pose proof (Z.div_mod a delta ltac:(lia)) as Hdm.
  pose proof (Z.mod_pos_bound a delta Hd) as Hmod.
  lia.
Qed.

Lemma elem_of_grid u t delta n :
  u ∈ grid t delta n → ∃ k : nat, (k < n)%nat ∧ u = t + Z.of_nat k * delta.
Proof.
  revert t. induction n as [|n IH]; intros t Hu; simpl in Hu.
  - by apply elem_of_nil in Hu.
  - apply elem_of_cons in Hu as [->|Hu].
    + exists 0%nat. split; lia.
    + apply IH in Hu as (k & Hk & ->). exists (S k). split; lia.
Qed.

Lemma length_grid t delta n : length (grid t delta n) = n.
Proof. revert t. induction n as [|n IH]; intros t; simpl; [done|by rewrite IH]. Qed.

Lemma ascending_last_ge r0 rest rn :
  ascending (r0 :: rest) → last (r0 :: rest) = Some rn → r0.1 ≤ rn.1.
Proof.
  intros [_ Hle]%ascending_cons Hlast.
  destruct rest as [|r1 rest]; [simpl in Hlast; by simplify_eq|].
  rewrite last_cons_cons in Hlast. apply last_Some_elem_of in Hlast.
  rewrite Forall_forall in Hle. by apply Hle.
Qed.
End SampleFacts.

Section SampleClaims.
Context {A : Type}.
Implicit Types (df rest : list (srow A)) (r : srow A) (t delta : Z).

(** C1 (as amended).  On a non-empty day sorted by timestamp, sampled with
    a positive interval, [sample] returns, and every point [(t, v)] it
    emits carries the data of the last row of the table whose timestamp
    is strictly before [t], or the data of the first row when no
    timestamp is strictly before [t].  The value is always the data of a
    row of the table: nothing is interpolated. *)
Theorem sample_forward_fill fuel df r0 rn delta :
  head df = Some r0 →
  last df = Some rn →
  ascending df →
  0 < delta →
  (grid_length r0.1 rn.1 delta ≤ fuel)%nat →
  (length df ≤ fuel)%nat →
  ∃ out,
    sample fuel df delta = Ok out
    ∧ ∀ t v, (t, v) ∈ out →
        v = (default r0 (latest_before t df)).2
        ∧ ∃ r, r ∈ df ∧ v = r.2.
Proof.
  intros Hhead Hlast Hasc Hdelta Hf1 Hf2.
  destruct df as [|r0' rest]; [done|]. simpl in Hhead. simplify_eq.
  eexists. split.
  { apply sample_ascending; eauto. simpl in Hf2. lia. }
  intros t v Htv. apply list_elem_of_fmap in Htv as (u & Heq & _).
  simplify_eq. split; [done|].
  unfold latest_before.
  destruct (last (filter (λ r, r.1 < u) (r0 :: rest))) as [r|] eqn:Hl.
  - exists r. split; [|done]. apply last_Some_elem_of in Hl.
    by apply list_elem_of_filter in Hl as [_ ?].
  - exists r0. split; [left|done].
Qed.

(** C2 (as amended).  On a non-empty sorted day with first timestamp
    [t_min], last timestamp [t_max] and interval [delta > 0], [sample]
    returns, and the number [n] of samples is the quotient
    [(t_max - t_min) / delta] rounded up: the least [n] with
    [t_max - t_min ≤ n * delta]. *)
Theorem sample_length fuel df r0 rn delta :
  head df = Some r0 →
  last df = Some rn →
  ascending df →
  0 < delta →
  (grid_length r0.1 rn.1 delta ≤ fuel)%nat →
  (length df ≤ fuel)%nat →
  ∃ out,
    sample fuel df delta = Ok out
    ∧ Z.of_nat (length out) = ceil_div (rn.1 - r0.1) delta
    ∧ rn.1 - r0.1 ≤ Z.of_nat (length out) * delta < rn.1 - r0.1 + delta.
Proof.
  intros Hhead Hlast Hasc Hdelta Hf1 Hf2.
  destruct df as [|r0' rest]; [done|]. simpl in Hhead. simplify_eq.
  pose proof (ascending_last_ge _ _ _ Hasc Hlast) as Hle.
  eexists. split.
  { apply sample_ascending; eauto. simpl in Hf2. lia. }
  rewrite length_fmap, length_grid.
  pose proof (grid_length_bounds r0.1 rn.1 delta Hdelta Hle) as Hb.
  simpl in Hb. split; [|done].
  unfold grid_length in *. unfold ceil_div in *.
  rewrite Z2Nat.id; [done|]. apply Z.div_pos; lia.
Qed.

(** C10.  On a non-empty sorted day whose time span is positive and
    strictly smaller than the interval, [sample] returns exactly one
    sample: the first timestamp with the first row's data. *)
Theorem sample_interval_exceeds_span fuel df r0 rn delta :
  head df = Some r0 →
  last df = Some rn →
  ascending df →
  0 < rn.1 - r0.1 < delta →
  (0 < fuel)%nat →
  sample fuel df delta = Ok [(r0.1, r0.2)].
Proof.
  intros Hhead Hlast Hasc Hspan Hfuel.
  destruct df as [|r0' rest]; [done|]. simpl in Hhead. simplify_eq.
  destruct rest as [|r1 rest]; [simpl in Hlast; simplify_eq; lia|].
  pose proof (ascending_cons _ _ Hasc) as [_ Hle].
  apply Forall_cons in Hle as [Hle _].
  unfold sample.
  rewrite (col_min_ascending _ _ Hasc), (col_max_ascending _ _ Hasc Hlast).
  destruct fuel as [|fuel]; [lia|]. simpl.
  rewrite bool_decide_true by lia.
  unfold outer_body at 1. simpl.
  unfold inner_cond at 1. simpl. rewrite bool_decide_false by lia. simpl.
  destruct fuel; simpl; rewrite bool_decide_false by lia; done.
Qed.
End SampleClaims.

(** * Day groups and day-bounded differencing *)

Section Differencing.
Context {B : Type}.

Lemma dropna_app {C : Type} (s1 s2 : list (option C)) :
  dropna (s1 ++ s2) = dropna s1 ++ dropna s2.
Proof. apply omap_app. Qed.

Lemma dropna_mjoin {C : Type} (ss : list (list (option C))) :
  dropna (mjoin ss) = mjoin (dropna <$> ss).
Proof.
  induction ss as [|s ss IH]; [done|].
  simpl. by rewrite dropna_app, IH.
Qed.

Lemma dropna_diff (sub : B → B → B) (s : list B) :
  dropna (diff sub s) = gaps sub s.
Proof.
  assert (Hzip : ∀ s l : list B,
    dropna (zip_with (λ cur prev, Some (sub cur prev)) s l)
    = zip_with sub s l).
  { clear. induction s as [|y s IH]; intros [|z l]; try done.
    unfold dropna in *. simpl. by rewrite IH. }
  destruct s as [|x s]; [done|]. unfold gaps, diff.
  change (dropna (None :: ?l)) with (dropna l). apply Hzip.
Qed.

Lemma length_gaps (sub : B → B → B) (s : list B) :
  length (gaps sub s) = (length s - 1)%nat.
Proof.
  unfold gaps. rewrite length_zip_with. destruct s; simpl; lia.
Qed.
End Differencing.

Lemma dropna_returns_of_day (p : list Qc) :
  dropna (returns_of_day p) = day_returns p.
Proof.
  assert (Hzip : ∀ s l : list Qc,
    dropna (zip_with (λ d x, (λ n, n / x)%Qc <$> d)
              (zip_with (λ cur prev, Some (cur - prev)%Qc) s l) s)
    = zip_with (λ cur prev, ((cur - prev) / cur)%Qc) s l).
  { induction s as [|y s IH]; intros [|z l]; try done.
    unfold dropna in *. simpl. by rewrite IH. }
  destruct p as [|x s]; [done|]. unfold returns_of_day, day_returns, diff.
  simpl zip_with at 1. change (dropna (None :: ?l)) with (dropna l).
  apply Hzip.
Qed.

Lemma length_day_returns (p : list Qc) :
  length (day_returns p) = (length p - 1)%nat.
Proof. unfold day_returns. rewrite length_zip_with. destruct p; simpl; lia. Qed.


Section Groupby.
Context {B : Type} (key : B → string).

Lemma groups_partition (keys : list string) : ∀ df : list B,
  NoDup keys →
  (∀ r, r ∈ df → key r ∈ keys) →
  mjoin ((λ k, filter (λ r, key r = k) df) <$> keys) ≡ₚ df.
Proof.
  induction keys as [|k keys IH]; intros df Hnd Hin.
  - destruct df as [|r df]; [done|].
    specialize (Hin r ltac:(left)). by apply elem_of_nil in Hin.
  - apply NoDup_cons in Hnd as [Hk Hnd]. rewrite fmap_cons.
    change (mjoin (?x :: ?l)) with (x ++ mjoin l).
    trans (filter (λ r, key r = k) df ++ filter (λ r, key r ≠ k) df);
      [|apply filter_app_complement].
    assert (Heq : (λ k', filter (λ r, key r = k') df) <$> keys
                  = (λ k', filter (λ r, key r = k')
                             (filter (λ r, key r ≠ k) df)) <$> keys).
    { apply list_fmap_ext. intros i k' Hk'.
      rewrite list_filter_filter. apply list_filter_iff.
      intros r. split; [|tauto]. intros ->. split; [done|].
      intros ->. apply Hk. by eapply list_elem_of_lookup_2. }
    rewrite Heq. apply Permutation_app_head. apply IH; [done|].
    intros r [Hne Hr]%list_elem_of_filter.
    specialize (Hin r Hr). apply elem_of_cons in Hin as [?|?]; done.
Qed.

Lemma groupby_keys (df : list B) :
  (groupby key df).*1 ≡ₚ remove_dups (key <$> df).
Proof.
  unfold groupby. rewrite <- list_fmap_compose.
  rewrite <- (merge_sort_Permutation string_le (remove_dups _)) at 2.
  generalize (merge_sort string_le (remove_dups (key <$> df))).
  intros keys. induction keys as [|k keys IH]; [done|].
  rewrite fmap_cons. simpl. by f_equiv.
Qed.

Lemma groupby_partition (df : list B) :
  mjoin (groupby key df).*2 ≡ₚ df.
Proof.
  unfold groupby. rewrite <- list_fmap_compose.
  apply groups_partition.
  - rewrite merge_sort_Permutation. apply NoDup_remove_dups.
  - intros r Hr. rewrite merge_sort_Permutation, elem_of_remove_dups.
    by apply list_elem_of_fmap_2.
Qed.

Lemma elem_of_groupby (df : list B) (g : string * list B) :
  g ∈ groupby key df →
  g.2 = filter (λ r, key r = g.1) df ∧ g.2 ≠ [] ∧ ∀ r, r ∈ g.2 → key r = g.1.
Proof.
  unfold groupby. intros (k & -> & Hk)%list_elem_of_fmap. simpl.
  rewrite merge_sort_Permutation, elem_of_remove_dups in Hk.
  apply list_elem_of_fmap in Hk as (r & -> & Hr).
  split; [done|]. split.
  - intros Hnil. eapply (filter_nil_not_elem_of _ _ r) in Hnil; done.
  - by intros r' [? _]%list_elem_of_filter.
Qed.

Lemma groupby_count (df : list B) (f : list B → nat) :
  (∀ l, l ≠ [] → S (f l) = length l) →
  (sum_list ((λ g, f g.2) <$> groupby key df) + length (groupby key df)
   = length df)%nat.
Proof.
  intros Hf. rewrite <- (Permutation_length (groupby_partition df)).
  assert (Hne : Forall (λ g, g.2 ≠ []) (groupby key df)).
  { apply Forall_forall. intros g Hg.
    by apply elem_of_groupby in Hg as (_ & ? & _). }
  revert Hne. generalize (groupby key df). intros gs.
  induction 1 as [|g gs Hg _ IH]; [done|].
  rewrite !fmap_cons. change (mjoin (?x :: ?l)) with (x ++ mjoin l).
  rewrite length_app, <- IH, <- (Hf _ Hg). simpl. lia.
Qed.
End Groupby.

Lemma length_s_inter_time (df : list trade) :
  (length (s_inter_time df) + length (groupby trade_date df) = length df)%nat.
Proof.
  unfold s_inter_time.
  rewrite length_fmap, dropna_mjoin, length_join, <- !list_fmap_compose.
  rewrite <- (groupby_count trade_date df (λ l, (length l - 1)%nat)).
  - f_equal. f_equal. apply list_fmap_ext. intros i g _. simpl.
    by rewrite dropna_diff, length_gaps, length_fmap.
  - intros [|r l] Hl; [done|]. simpl. lia.
Qed.

Lemma length_s_returns (res : list (Z * (Qc * string))) :
  (length (dropna (s_returns res)) + length (groupby (λ r, r.2.2) res)
   = length res)%nat.
Proof.
  unfold s_returns.
  rewrite dropna_mjoin, length_join, <- !list_fmap_compose.
  rewrite <- (groupby_count (λ r, r.2.2) res (λ l, (length l - 1)%nat)).
  - f_equal. f_equal. apply list_fmap_ext. intros i g _. simpl.
    by rewrite dropna_returns_of_day, length_day_returns, length_fmap.
  - intros [|r l] Hl; [done|]. simpl. lia.
Qed.

(** C3.  The table is split into one group per distinct day key; every
    group is non-empty and holds rows of one day only.  A day with [k]
    rows yields [k - 1] interarrival times, each the difference of two
    consecutive rows of that day, and all days together yield as many as
    there are rows minus the number of days.  The returns of the resampled
    table are differenced in the same way. *)
Theorem day_bounded_diff_count (df : list trade) (res : list (Z * (Qc * string))) :
  let days := groupby trade_date df in
  length days = length (remove_dups (trade_date <$> df))
  ∧ (∀ g, g ∈ days →
       g.2 ≠ []
       ∧ (∀ r, r ∈ g.2 → trade_date r = g.1)
       ∧ dropna (diff Z.sub (trade_date_time <$> g.2))
         = gaps Z.sub (trade_date_time <$> g.2)
       ∧ length (dropna (diff Z.sub (trade_date_time <$> g.2)))
         = (length g.2 - 1)%nat)
  ∧ s_inter_time df
    = total_seconds <$>
        mjoin ((λ g, gaps Z.sub (trade_date_time <$> g.2)) <$> days)
  ∧ (length (s_inter_time df) + length days = length df)%nat
  ∧ (∀ p, length (dropna (returns_of_day p)) = (length p - 1)%nat)
  ∧ (length (dropna (s_returns res)) + length (groupby (λ r, r.2.2) res)
     = length res)%nat.
Proof.
  intros days. split; [|split; [|split; [|split; [|split]]]].
  - unfold days. rewrite <- (length_fmap fst).
    apply Permutation_length, groupby_keys.
  - intros g Hg. apply elem_of_groupby in Hg as (_ & Hne & Hkey).
    split; [done|]. split; [done|].
    rewrite dropna_diff. split; [done|].
    by rewrite length_gaps, length_fmap.
  - unfold s_inter_time. rewrite dropna_mjoin, <- list_fmap_compose.
    f_equal. f_equal. apply list_fmap_ext. intros i g _. simpl.
    apply dropna_diff.
  - apply length_s_inter_time.
  - intros p. by rewrite dropna_returns_of_day, length_day_returns.
  - apply length_s_returns.
Qed.

(** * Loops, binds and the provenance of sampled values *)

Lemma while_invariant {S : Type} (I : S → Prop) (cond : S → result bool)
    (body : S → result S) :
  (∀ s s1, I s → cond s = Ok true → body s = Ok s1 → I s1) →
  ∀ fuel s s', I s → while fuel cond body s = Ok s' → I s'.
Proof.
  intros Hstep. induction fuel as [|fuel IH]; intros s s' Hs Hrun; simpl in Hrun.
  - destruct (cond s) as [[|]|]; by simplify_eq.
  - destruct (cond s) as [[|]|] eqn:Hc; [|by simplify_eq|done].
    destruct (body s) as [s1|] eqn:Hb; [|done].
    eapply IH; [|exact Hrun]. eauto.
Qed.

Lemma bind_Ok {B C : Type} (m : result B) (k : B → result C) (c : C) :
  m ≫= k = Ok c → ∃ b, m = Ok b ∧ k b = Ok c.
Proof. destruct m as [b|e]; [|done]. intros H. by exists b. Qed.

Lemma mapM_Ok {B C : Type} (f : B → result C) (l : list B) (k : list C) :
  mapM f l = Ok k → Forall2 (λ x y, f x = Ok y) l k.
Proof.
  revert k. induction l as [|x l IH]; intros k Hk; cbn in Hk.
  - injection Hk as <-. constructor.
  - destruct (f x) as [y|] eqn:Hx; [|done]. cbn in Hk.
    destruct (mapM f l) as [k'|]; [|done]. cbn in Hk.
    injection Hk as <-. constructor; auto.
Qed.

Lemma mapM_returns {B C : Type} (f : B → result C) (l : list B) :
  Forall (λ x, ∃ y, f x = Ok y) l → ∃ k, mapM f l = Ok k.
Proof.
  induction 1 as [|x l [y Hy] _ [k Hk]]; [by exists []|].
  exists (y :: k). cbn. rewrite Hy. cbn. rewrite Hk. done.
Qed.

Section SampleValues.
Context {A : Type}.

(** Whatever the order of the rows, the data [sample] emits are data of
    rows of the table. *)
Lemma sample_values_from_table fuel (df : list (srow A)) delta out :
  sample fuel df delta = Ok out →
  ∀ t v, (t, v) ∈ out → ∃ r, r ∈ df ∧ v = r.2.
Proof.
  unfold sample. intros Hrun.
  apply bind_Ok in Hrun as (r0 & Hr0 & Hrun).
  destruct (col_min df) as [t_min|], (col_max df) as [t_max|];
    try (injection Hrun as <-; by intros ?? ?%elem_of_nil).
  apply bind_Ok in Hrun as (s & Hloop & Hrun).
  injection Hrun as <-.
  set (from_table := λ v : A, ∃ r, r ∈ df ∧ v = r.2).
  assert (Hlookup : ∀ i r, irow df i = Ok r → r ∈ df).
  { unfold irow. intros i r Hi. destruct (df !! i) eqn:Hl; [|done].
    simplify_eq. by eapply list_elem_of_lookup_2. }
  pose (I := λ s : sample_state,
    from_table (st_last s) ∧ ∀ t v, (t, v) ∈ st_out s → from_table v).
  assert (HI : I s); [|by apply HI].
  eapply (while_invariant I); [|..|exact Hloop].
  - intros s0 s1 [Hlast Hout] _ Hbody. unfold outer_body in Hbody.
    apply bind_Ok in Hbody as (c & Hinner & Hbody).
    injection Hbody as <-. simpl.
    assert (Hc : from_table c.2).
    { eapply (while_invariant (λ c, from_table c.2)); [|..|exact Hinner].
      - intros c0 c1 _ _ Hb. unfold inner_body in Hb.
        apply bind_Ok in Hb as (r & Hr & Hb).
        injection Hb as <-. simpl.
        exists r. split; [|done]. eauto.
      - done. }
    split; [done|]. intros t v [Hin|Hin]%elem_of_app; [eauto|].
    apply list_elem_of_singleton in Hin. by simplify_eq.
  - split; simpl.
    + exists r0. split; [|done]. eauto.
    + intros t v Hin. by apply elem_of_nil in Hin.
Qed.
End SampleValues.

(** * Quantiles and counts *)

Local Open Scope Qc_scope.

Ltac qc_to_q :=
  unfold Qcle, Qclt, Qcminus, Qcopp, Qcplus, Qcmult, Q2Qc in *;
  cbn [this] in *;
  repeat (rewrite ?Qred_correct in * );
  repeat match goal with
  | H : context [Qred _] |- _ => rewrite Qred_correct in H
  end.

Lemma interp_lower (a b f : Qc) : a ≤ b → 0 ≤ f → a ≤ a + (b - a) * f.
Proof. intros Hab Hf. qc_to_q. nra. Qed.

Lemma interp_upper (a b f : Qc) : a ≤ b → f ≤ 1 → a + (b - a) * f ≤ b.
Proof. intros Hab Hf. qc_to_q. nra. Qed.

Lemma interp_mono (a b f1 f2 : Qc) :
  a ≤ b → f1 ≤ f2 → a + (b - a) * f1 ≤ a + (b - a) * f2.
Proof. intros Hab Hf. qc_to_q. nra. Qed.

Lemma Qc_of_nat_le (a b : nat) : (a ≤ b)%nat ↔ Qc_of_nat a ≤ Qc_of_nat b.
Proof.
  unfold Qc_of_nat, Qc_of_Z, Qcle. cbn [this].
  rewrite <- Zle_Qle. lia.
Qed.

Lemma Qc_of_nat_lt (a b : nat) : (a < b)%nat ↔ Qc_of_nat a < Qc_of_nat b.
Proof.
  unfold Qc_of_nat, Qc_of_Z, Qclt. cbn [this].
  rewrite <- Zlt_Qlt. lia.
Qed.

Lemma floor_spec (idx : Qc) :
  0 ≤ idx →
  Qc_of_nat (Z.to_nat (Qfloor idx)) ≤ idx
  ∧ idx < Qc_of_nat (S (Z.to_nat (Qfloor idx))).
Proof.
  intros H0.
  assert (0 ≤ Qfloor idx)%Z as Hfl.
  { change 0%Z with (Qfloor 0). by apply Qfloor_resp_le. }
  unfold Qc_of_nat, Qc_of_Z, Qcle, Qclt. cbn [this].
  rewrite Nat2Z.inj_succ, Z2Nat.id by done. split.
  - apply Qfloor_le.
  - rewrite <- Z.add_1_r. apply Qlt_floor.
Qed.

Lemma floor_mono (i1 i2 : Qc) :
  i1 ≤ i2 → (Z.to_nat (Qfloor i1) ≤ Z.to_nat (Qfloor i2))%nat.
Proof. intros H. pose proof (Qfloor_resp_le _ _ H). lia. Qed.

Lemma sorted_nth_le (v : list Qc) (d : Qc) (i j : nat) :
  StronglySorted Qcle v → (i ≤ j)%nat → (j < length v)%nat →
  nth i v d ≤ nth j v d.
Proof.
  intros Hv. revert i j. induction Hv as [|x v Hv IH Hx]; intros i j Hij Hj.
  - simpl in Hj. lia.
  - destruct j as [|j].
    + assert (i = 0%nat) as -> by lia. apply Qcle_refl.
    + simpl in Hj. destruct i as [|i]; simpl.
      * rewrite Forall_forall in Hx. apply Hx.
        apply list_elem_of_In, nth_In. lia.
      * apply IH; lia.
Qed.

(** The interpolated value lies between the order statistics around it. *)
Lemma score_at_bounds (v : list Qc) (x0 idx : Qc) :
  StronglySorted Qcle v →
  0 ≤ idx → idx ≤ Qc_of_nat (length v - 1) → v ≠ [] →
  let lo := Z.to_nat (Qfloor idx) in
  (lo < length v)%nat
  ∧ nth lo v x0 ≤ score_at v x0 idx
  ∧ ∀ j, (lo < j)%nat → (j < length v)%nat → score_at v x0 idx ≤ nth j v x0.
Proof.
  intros Hv H0 Hn Hne lo.
  destruct (floor_spec idx H0) as [Hlo1 Hlo2]. fold lo in Hlo1, Hlo2.
  assert (0 < length v)%nat as Hlen by (destruct v; [done|simpl; lia]).
  assert (lo ≤ length v - 1)%nat as Hlo.
  { apply Qc_of_nat_le. by trans idx. }
  split; [lia|].
  unfold score_at. fold lo.
  destruct (decide (idx - Qc_of_nat lo = 0)) as [Hfrac|Hfrac].
  - split; [apply Qcle_refl|]. intros j Hj1 Hj2.
    apply sorted_nth_le; [done|lia|done].
  - assert (Qc_of_nat lo < idx) as Hlt.
    { apply Qcle_lt_or_eq in Hlo1 as [?|Heq]; [done|].
      exfalso. apply Hfrac. rewrite <- Heq. ring. }
    assert (S lo < length v)%nat as Hlo'.
    { assert (lo < length v - 1)%nat; [|lia].
      apply Qc_of_nat_lt. by eapply Qclt_le_trans. }
    assert (nth lo v x0 ≤ nth (S lo) v x0) as Hstep.
    { apply sorted_nth_le; [done|lia|done]. }
    assert (0 ≤ idx - Qc_of_nat lo) as Hf0.
    { clear -Hlo1. qc_to_q. lra. }
    assert (idx - Qc_of_nat lo ≤ 1) as Hf1.
    { clear -Hlo2. unfold Qc_of_nat in *. 
      rewrite Nat2Z.inj_succ in Hlo2.
      unfold Qc_of_Z in *. qc_to_q. 
      rewrite <- Z.add_1_r, inject_Z_plus in Hlo2.
      change (inject_Z 1) with 1%Q in Hlo2. lra. }
    split; [by apply interp_lower|].
    intros j Hj1 Hj2. trans (nth (S lo) v x0).
    + by apply interp_upper.
    + apply sorted_nth_le; [done|lia|done].
Qed.

Lemma score_at_mono (v : list Qc) (x0 i1 i2 : Qc) :
  StronglySorted Qcle v →
  0 ≤ i1 → i1 ≤ i2 → i2 ≤ Qc_of_nat (length v - 1) → v ≠ [] →
  score_at v x0 i1 ≤ score_at v x0 i2.
Proof.
  intros Hv H0 H12 Hn Hne.
  assert (0 ≤ i2) as H02 by by trans i1.
  assert (i1 ≤ Qc_of_nat (length v - 1)) as Hn1 by by trans i2.
  destruct (score_at_bounds v x0 i1 Hv H0 Hn1 Hne) as (Hl1 & Hlow1 & Hup1).
  destruct (score_at_bounds v x0 i2 Hv H02 Hn Hne) as (Hl2 & Hlow2 & Hup2).
  pose proof (floor_mono _ _ H12) as Hfl.
  destruct (decide (Z.to_nat (Qfloor i1) = Z.to_nat (Qfloor i2))) as [Heq|Hneq].
  - unfold score_at. rewrite <- Heq.
    set (lo := Z.to_nat (Qfloor i1)) in *.
    destruct (floor_spec i1 H0) as [Ha1 Ha2]. fold lo in Ha1, Ha2.
    destruct (decide (i1 - Qc_of_nat lo = 0)) as [Hf1|Hf1].
    + unfold score_at in Hlow2. rewrite <- Heq in Hlow2. exact Hlow2.
    + assert (Qc_of_nat lo < i1) as Hlt.
      { apply Qcle_lt_or_eq in Ha1 as [?|Hq]; [done|].
        exfalso. apply Hf1. rewrite <- Hq. ring. }
      destruct (decide (i2 - Qc_of_nat lo = 0)) as [Hf2|Hf2].
      { exfalso. assert (i2 = Qc_of_nat lo) as Hi2.
        { rewrite <- (Qcplus_0_l (Qc_of_nat lo)), <- Hf2. ring. }
        rewrite Hi2 in H12. by apply Qcle_not_lt in H12. }
      assert (S lo < length v)%nat as Hlo'.
      { assert (lo < length v - 1)%nat; [|lia].
        apply Qc_of_nat_lt. eapply Qclt_le_trans; [exact Hlt|done]. }
      apply interp_mono.
      * apply sorted_nth_le; [done|lia|done].
      * clear -H12. qc_to_q. lra.
  - trans (nth (Z.to_nat (Qfloor i2)) v x0); [|done].
    apply Hup1; [lia|done].
Qed.

Lemma Qc_of_nat_0 : Qc_of_nat 0 = 0.
Proof. by apply Qc_is_canon. Qed.

Lemma count_below_mono (s : list Qc) (a b : Qc) :
  a ≤ b → (count_below s (Some a) ≤ count_below s (Some b))%nat.
Proof.
  intros Hab. simpl. induction s as [|x s IH]; [done|].
  rewrite !filter_cons.
  destruct (decide (x < a)) as [Hxa|Hxa].
  - rewrite decide_True by (by eapply Qclt_le_trans). simpl. lia.
  - destruct (decide (x < b)); simpl; lia.
Qed.

Lemma count_below_length (s : list Qc) (thr : option Qc) :
  (count_below s thr ≤ length s)%nat.
Proof. destruct thr; simpl; [apply length_filter|lia]. Qed.

Lemma count_below_quantile_mono (s : list Qc) (q1 q2 : Qc) :
  0 ≤ q1 → q1 ≤ q2 → q2 ≤ 1 →
  (count_below s (quantile s q1) ≤ count_below s (quantile s q2))%nat.
Proof.
  intros H0 H12 H1. unfold quantile.
  pose proof (StronglySorted_merge_sort Qcle s) as Hv.
  destruct (merge_sort Qcle s) as [|x0 v] eqn:Hs; [done|].
  apply count_below_mono.
  set (m := Qc_of_nat (length (x0 :: v) - 1)).
  assert (0 ≤ m) as Hm.
  { rewrite <- Qc_of_nat_0. apply Qc_of_nat_le. lia. }
  apply score_at_mono; [done| | | |done].
  - clear -H0 Hm. qc_to_q. nra.
  - clear -H12 Hm. qc_to_q. nra.
  - fold m. clear -H1 Hm. qc_to_q. nra.
Qed.

Lemma quantile_Permutation (s s' : list Qc) (q : Qc) :
  s ≡ₚ s' → quantile s q = quantile s' q.
Proof.
  intros Hp. unfold quantile.
  assert (merge_sort Qcle s = merge_sort Qcle s') as ->; [|done].
  apply (Sorted_unique Qcle); [apply Sorted_merge_sort, _..|].
  by rewrite !merge_sort_Permutation.
Qed.

Lemma count_below_Permutation (s s' : list Qc) (thr : option Qc) :
  s ≡ₚ s' → count_below s thr = count_below s' thr.
Proof. intros Hp. destruct thr; simpl; [|done]. by rewrite Hp. Qed.

Section AnalyzeFacts.
Variable sqrt : Qc → Qc.

(** When the analysis returns, the resampling of every day returned, the
    table has a first row, and the variables hold the values below. *)
Lemma analyze_locals_Ok fuel df rep :
  analyze_locals sqrt fuel df = Ok rep →
  ∃ res first,
    df_trade_price_res fuel df = Ok res
    ∧ ix0 df = Ok first
    ∧ let price := trade_price <$> df in
      let inter := s_inter_time df in
      let vol := (λ g, Zsum (trade_quantity <$> g.2)) <$> groupby trade_date df in
      let returns := dropna (s_returns res) in
      rep = Report
        (count_below price (quantile price (Q2Qc 0.25)))
        (count_below price (quantile price (Q2Qc 0.50)))
        (count_below price (quantile price (Q2Qc 0.75)))
        (col_fold Qc_max price) (col_fold Qc_min price) (mean price)
        (count_below inter (quantile inter (Q2Qc 0.25)))
        (count_below inter (quantile inter (Q2Qc 0.50)))
        (count_below inter (quantile inter (Q2Qc 0.75)))
        (mean (Qc_of_Z <$> vol)) (col_fold Z.max vol) (col_fold Z.min vol)
        (median (Qc_of_Z <$> vol))
        (std sqrt ((λ r, r.2.1) <$> res))
        ((λ m, m * Qc_of_Z 10000) <$> mean returns)
        ((λ d, d * Qc_of_Z 10000) <$> std sqrt returns)
        ((λ x, 10000 * int x)%Z <$>
           ((λ m, m - trade_price first) <$>
              ((λ g, py_max (trade_price <$> g.2)) <$> groupby trade_date df)))
        ((λ x, 10000 * int x)%Z <$>
           ((λ m, m - trade_price first) <$>
              ((λ g, py_min (trade_price <$> g.2)) <$> groupby trade_date df))).
Proof.
  unfold analyze_locals. intros H.
  destruct (df_trade_price_res fuel df) as [res|e] eqn:Hres; [|done].
  destruct (ix0 df) as [first|e] eqn:Hfirst; [|done].
  exists res, first. split; [done|]. split; [done|].
  simpl in H. injection H as <-. reflexivity.
Qed.
End AnalyzeFacts.

(** * Returns and their moments *)

Lemma Qcsum_cons (x : Qc) (s : list Qc) : Qcsum (x :: s) = x + Qcsum s.
Proof. done. Qed.

Lemma Qcsum_scale (s : list Qc) (c : Qc) :
  Qcsum ((λ x, x * c) <$> s) = Qcsum s * c.
Proof.
  induction s as [|x s IH]; [unfold Qcsum; simpl; ring|].
  rewrite fmap_cons, !Qcsum_cons, IH. ring.
Qed.

Lemma mean_scale (s : list Qc) (c : Qc) :
  mean ((λ x, x * c) <$> s) = (λ m, m * c) <$> mean s.
Proof.
  destruct s as [|x s]; [done|]. unfold mean.
  rewrite fmap_cons, <- (fmap_cons (λ x, x * c)), length_fmap, Qcsum_scale.
  cbn [fmap option_fmap option_map]. apply (f_equal Some). unfold Qcdiv. ring.
Qed.

Lemma Qcsum_squares_scale (s : list Qc) (m c : Qc) :
  Qcsum ((λ x, (x - m * c) * (x - m * c)) <$> ((λ x, x * c) <$> s))
  = Qcsum ((λ x, (x - m) * (x - m)) <$> s) * (c * c).
Proof.
  induction s as [|x s IH]; [unfold Qcsum; simpl; ring|].
  rewrite !fmap_cons, !Qcsum_cons, IH. ring.
Qed.

Lemma var_scale (s : list Qc) (c : Qc) :
  var ((λ x, x * c) <$> s) = (λ v, v * (c * c)) <$> var s.
Proof.
  unfold var. rewrite !length_fmap. case_bool_decide; [done|].
  cbn [fmap option_fmap option_map]. apply (f_equal Some). rewrite Qcsum_scale.
  replace (Qcsum s * c / Qc_of_nat (length s))
    with (Qcsum s / Qc_of_nat (length s) * c) by (unfold Qcdiv; ring).
  rewrite Qcsum_squares_scale. unfold Qcdiv. ring.
Qed.

Lemma day_returns_lookup (p : list Qc) (i : nat) (cur prev : Qc) :
  p !! S i = Some cur → p !! i = Some prev →
  day_returns p !! i = Some ((cur - prev) / cur).
Proof.
  intros Hcur Hprev. unfold day_returns.
  rewrite lookup_zip_with, lookup_tail, Hcur, Hprev. done.
Qed.

(** * The analysis as a whole *)

(** The view of a trade that [analyze] hands to [sample]. *)
Lemma df_trade_price_res_from_table fuel df res :
  df_trade_price_res fuel df = Ok res →
  ∀ r, r ∈ res →
    ∃ tr, tr ∈ df ∧ r.2 = (trade_price tr, trade_date tr).
Proof.
  unfold df_trade_price_res. intros Hres r Hr.
  apply bind_Ok in Hres as (days & Hdays & Hres). injection Hres as <-.
  apply mapM_Ok in Hdays.
  apply list_elem_of_join in Hr as (d & Hrd & Hd).
  apply list_elem_of_lookup in Hd as [i Hi].
  destruct (Forall2_lookup_r _ _ _ _ _ Hdays Hi) as (g & Hg & Hsample).
  destruct r as [t v].
  destruct (sample_values_from_table _ _ _ _ Hsample t v Hrd) as (row & Hrow & ->).
  apply list_elem_of_fmap in Hrow as (tr & -> & Htr).
  exists tr. split; [|done].
  apply list_elem_of_lookup_2, elem_of_groupby in Hg as (Hfilter & _).
  rewrite Hfilter in Htr. by apply list_elem_of_filter in Htr as [_ ?].
Qed.

Section AnalyzeReturns.
Variable sqrt : Qc → Qc.

(** On a table with at least one row whose days are sorted, the analysis
    returns once the fuel covers every day. *)
Lemma analyze_locals_returns fuel df :
  df ≠ [] →
  (∀ g, g ∈ groupby trade_date df → day_fits fuel g.2) →
  ∃ rep, analyze_locals sqrt fuel df = Ok rep.
Proof.
  intros Hne Hdays. unfold analyze_locals.
  assert (∃ res, df_trade_price_res fuel df = Ok res) as [res ->].
  { unfold df_trade_price_res.
    destruct (mapM_returns
      (λ g : string * list trade, sample fuel
         ((λ r, (trade_date_time r, (trade_price r, trade_date r))) <$> g.2)
         three_minutes) (groupby trade_date df)) as [days ->]; [|by eexists].
    apply Forall_forall. intros g Hg. cbn beta.
    destruct (Hdays g Hg) as (Hasc & Hlen & Hgrid).
    apply elem_of_groupby in Hg as (_ & Hgne & _).
    destruct (g.2) as [|r0 rows] eqn:Hrows; [done|].
    destruct (last (r0 :: rows)) as [rn|] eqn:Hlast;
      [|by apply last_None in Hlast].
    set (f := λ r, (trade_date_time r, (trade_price r, trade_date r))) in *.
    eexists. rewrite fmap_cons.
    apply (sample_ascending fuel (f r0) (f <$> rows) (f rn)).
    - exact Hasc.
    - change (last (f <$> r0 :: rows) = Some (f rn)).
      by rewrite fmap_last, Hlast.
    - done.
    - by apply Hgrid.
    - rewrite length_fmap. simpl in Hlen. lia. }
  destruct df as [|first df]; [done|]. by eexists.
Qed.

Lemma analyze_returns fuel df :
  df ≠ [] →
  (∀ g, g ∈ groupby trade_date df → day_fits fuel g.2) →
  analyze sqrt fuel df = Ok df.
Proof.
  intros Hne Hdays. unfold analyze.
  by destruct (analyze_locals_returns fuel df Hne Hdays) as [rep ->].
Qed.
End AnalyzeReturns.

Section AnalysisClaims.
Variable sqrt : Qc → Qc.

(** C6.  The numbers of trade prices strictly below the 0.25, 0.50 and
    0.75 quantiles of the whole price column increase with the quantile
    and stay within the number of rows; a permutation of the rows of
    the table changes neither the quantiles nor the counts. *)
Theorem price_quartile_counts fuel df rep :
  analyze_locals sqrt fuel df = Ok rep →
  let price := trade_price <$> df in
  N_trade_price_q1 rep = count_below price (quantile price (Q2Qc 0.25))
  ∧ N_trade_price_q2 rep = count_below price (quantile price (Q2Qc 0.50))
  ∧ N_trade_price_q3 rep = count_below price (quantile price (Q2Qc 0.75))
  ∧ (N_trade_price_q1 rep ≤ N_trade_price_q2 rep
     ∧ N_trade_price_q2 rep ≤ N_trade_price_q3 rep
     ∧ N_trade_price_q3 rep ≤ length df)%nat
  ∧ (∀ df' q, df ≡ₚ df' →
       let price' := trade_price <$> df' in
       quantile price' q = quantile price q
       ∧ count_below price' (quantile price' q)
         = count_below price (quantile price q))
  ∧ (∀ fuel' df' rep', df ≡ₚ df' →
       analyze_locals sqrt fuel' df' = Ok rep' →
       N_trade_price_q1 rep' = N_trade_price_q1 rep
       ∧ N_trade_price_q2 rep' = N_trade_price_q2 rep
       ∧ N_trade_price_q3 rep' = N_trade_price_q3 rep).
Proof.
  intros Hrep price.
  assert (Hperm : ∀ df' q, df ≡ₚ df' →
    quantile (trade_price <$> df') q = quantile price q
    ∧ count_below (trade_price <$> df') (quantile (trade_price <$> df') q)
      = count_below price (quantile price q)).
  { intros df' q Hp.
    assert (trade_price <$> df' ≡ₚ price) as Hpp by (unfold price; by rewrite Hp).
    rewrite (quantile_Permutation _ _ q Hpp). split; [done|].
    by apply count_below_Permutation. }
  apply analyze_locals_Ok in Hrep as (res & first & _ & _ & ->).
  cbn [N_trade_price_q1 N_trade_price_q2 N_trade_price_q3]. fold price.
  do 3 (split; [done|]). split; [|split].
  - split; [|split].
    + apply count_below_quantile_mono; by vm_compute.
    + apply count_below_quantile_mono; by vm_compute.
    + rewrite <- (length_fmap trade_price df). apply count_below_length.
  - intros df' q Hp. by apply Hperm.
  - intros fuel' df' rep' Hp Hrep'.
    apply analyze_locals_Ok in Hrep' as (res' & first' & _ & _ & ->).
    cbn [N_trade_price_q1 N_trade_price_q2 N_trade_price_q3].
    repeat split; by apply Hperm.
Qed.

(** C7.  For a table of non-zero prices the resampled prices are
    non-zero, and each day of the resampled table with prices
    [p0, p1, ...] contributes the returns [(pi - pi-1) / pi] for [i ≥ 1]
    and nothing for its first sample; the reported mean and
    standard deviation are the mean and standard deviation of all these
    returns multiplied by 10000, and the reported mean is the mean of the
    returns in basis points. *)
Theorem bps_returns fuel df rep :
  Forall (λ r, trade_price r ≠ 0%Qc) df →
  analyze_locals sqrt fuel df = Ok rep →
  ∃ res,
    df_trade_price_res fuel df = Ok res
    ∧ (∀ r, r ∈ res → r.2.1 ≠ 0%Qc)
    ∧ let days := groupby (λ r, r.2.2) res in
      let series :=
        mjoin ((λ g, day_returns ((λ r, r.2.1) <$> g.2)) <$> days) in
      (∀ g, g ∈ days →
         let p := (λ r, r.2.1) <$> g.2 in
         head (returns_of_day p) = Some None
         ∧ dropna (returns_of_day p) = day_returns p
         ∧ length (day_returns p) = (length p - 1)%nat
         ∧ ∀ i cur prev, p !! S i = Some cur → p !! i = Some prev →
             day_returns p !! i = Some ((cur - prev) / cur)%Qc)
      ∧ dropna (s_returns res) = series
      ∧ mean_returns rep = (λ m, m * Qc_of_Z 10000)%Qc <$> mean series
      ∧ mean_returns rep = mean ((λ x, x * Qc_of_Z 10000)%Qc <$> series)
      ∧ std_returns rep = (λ d, d * Qc_of_Z 10000)%Qc <$> std sqrt series.
Proof.
  intros Hprice Hrep.
  apply analyze_locals_Ok in Hrep as (res & first & Hres & _ & ->).
  exists res. split; [done|]. split.
  { intros r Hr.
    destruct (df_trade_price_res_from_table _ _ _ Hres r Hr) as (tr & Htr & ->).
    rewrite Forall_forall in Hprice. by apply Hprice. }
  intros days series.
  assert (Hseries : dropna (s_returns res) = series).
  { unfold s_returns, series. rewrite dropna_mjoin, <- list_fmap_compose.
    f_equal. apply list_fmap_ext. intros i g _. simpl.
    apply dropna_returns_of_day. }
  cbn [mean_returns std_returns]. rewrite Hseries, mean_scale.
  split; [|done]. intros g Hg.
  apply elem_of_groupby in Hg as (_ & Hne & _).
  split; [|split; [|split]].
  - destruct (g.2) as [|r l]; done.
  - apply dropna_returns_of_day.
  - apply length_day_returns.
  - apply day_returns_lookup.
Qed.

(** C9.  On a table without rows the analysis does not return: it raises
    an exception of the program (the lookup of the first row fails),
    whatever the fuel. *)
Theorem analyze_empty fuel :
  ∃ e, analyze sqrt fuel [] = Err e ∧ e ≠ OutOfFuel.
Proof. exists KeyError. split; [reflexivity|discriminate]. Qed.

(** C5.  Whenever [analyze] returns, what it returns is the table it
    was given: none of the statistics is part of the result. *)
Theorem analyze_returns_table fuel df :
  analyze sqrt fuel df = Ok df ∨ ∃ e, analyze sqrt fuel df = Err e.
Proof.
  unfold analyze. destruct (analyze_locals sqrt fuel df) as [rep|e].
  - by left.
  - right. by exists e.
Qed.

(** What the daily deviation lists hold: for each day, 10000 times the
    whole part of the day's extreme price minus the price of the first
    row of the table. *)
Lemma daily_price_lists fuel df rep :
  analyze_locals sqrt fuel df = Ok rep →
  ∃ first, head df = Some first
    ∧ daily_price_max_list rep
      = (λ g, 10000 * int (py_max (trade_price <$> g.2) - trade_price first)%Qc)%Z
          <$> groupby trade_date df
    ∧ daily_price_min_list rep
      = (λ g, 10000 * int (py_min (trade_price <$> g.2) - trade_price first)%Qc)%Z
          <$> groupby trade_date df.
Proof.
  intros Hrep.
  apply analyze_locals_Ok in Hrep as (res & first & _ & Hfirst & ->).
  exists first. split; [destruct df; simpl in *; by simplify_eq|].
  cbn [daily_price_max_list daily_price_min_list].
  by rewrite <- !list_fmap_compose.
Qed.
End AnalysisClaims.

(** C8.  A day with a single record: [sample] returns the empty table
    whatever the interval and the fuel, and the differencing of the day's
    timestamps, and of the prices of a day with no or one sample, leaves no
    value. *)
Theorem single_record_day :
  (∀ (A : Type) (fuel : nat) (r : srow A) (delta : Z),
     sample fuel [r] delta = Ok [])
  ∧ (∀ r : trade,
       sample 0 [(trade_date_time r, (trade_price r, trade_date r))]
         three_minutes = Ok []
       ∧ diff Z.sub (trade_date_time <$> [r]) = [None]
       ∧ dropna (diff Z.sub (trade_date_time <$> [r])) = []
       ∧ s_inter_time [r] = [])
  ∧ dropna (returns_of_day []) = []
  ∧ (∀ p : Qc, dropna (returns_of_day [p]) = []).
Proof.
  assert (Hs : ∀ (A : Type) (fuel : nat) (r : srow A) (delta : Z),
            sample fuel [r] delta = Ok []).
  { intros A fuel r delta. unfold sample. simpl.
    destruct fuel; simpl; rewrite bool_decide_false by lia; done. }
  split; [exact Hs|]. split; [|done].
  intros r. split; [apply Hs|]. split; [done|]. split; [done|].
  pose proof (length_s_inter_time [r]) as Hlen.
  pose proof (Permutation_length (groupby_keys trade_date [r])) as Hkeys.
  rewrite length_fmap in Hkeys. simpl in Hkeys, Hlen.
  apply nil_length_inv. lia.
Qed.

(** * Examples: the theorems at concrete tables *)

Local Open Scope Z_scope.

Lemma ascending_three_ticks : ascending three_ticks.
Proof. repeat constructor; simpl; lia. Qed.

Lemma ascending_minute_ticks : ascending minute_ticks.
Proof. repeat constructor; simpl; lia. Qed.

(** The scenario of the specification: samples at 09:00:00 and 09:01:00. *)
Example sample_three_ticks :
  sample 2 three_ticks one_minute = Ok [(0, 100); (60000000, 101)].
Proof. reflexivity. Qed.

(** A tick that falls exactly on a sampling instant is not read at that
    instant. *)
Example sample_minute_ticks :
  sample 2 minute_ticks one_minute = Ok [(0, 100); (60000000, 100)].
Proof. reflexivity. Qed.

(** Rows out of order can drive the cursor past the end of the table. *)
Example sample_unsorted : sample 5 [(10, 100); (5, 101)] 3 = Err IndexError.
Proof. reflexivity. Qed.

(** With a zero interval the sampling time never advances: fifty rounds
    of fuel run out. *)
Example sample_zero_interval :
  sample 50 three_ticks 0 = Err OutOfFuel.
Proof. reflexivity. Qed.

(** C1, the claim as stated fails: with ticks a minute apart and a
    one-minute interval, the sample at the second tick's instant carries the
    first tick's value, not the value of the row at that instant. *)
Lemma sample_at_or_before_counterexample :
  ascending minute_ticks
  ∧ ¬ (∀ out, sample 2 minute_ticks one_minute = Ok out →
         ∀ t v, (t, v) ∈ out →
           Some v = snd <$> latest_at_or_before t minute_ticks).
Proof.
  split; [apply ascending_minute_ticks|]. intros H.
  specialize (H _ eq_refl 60000000 100).
  assert (Hin : (60000000, 100) ∈ [(0, 100); (60000000, 100)])
    by (right; left).
  specialize (H Hin). vm_compute in H. discriminate H.
Qed.

Lemma sample_forward_fill_witness :
  ∃ out,
    sample 3 minute_ticks one_minute = Ok out
    ∧ ∀ t v, (t, v) ∈ out →
        v = (default (0, 100) (latest_before t minute_ticks)).2
        ∧ ∃ r, r ∈ minute_ticks ∧ v = r.2.
Proof.
  apply (sample_forward_fill 3 minute_ticks (0, 100) (120000000, 102) one_minute).
  - reflexivity.
  - reflexivity.
  - repeat constructor; simpl; lia.
  - reflexivity.
  - vm_compute. lia.
  - simpl. lia.
Defined.

(** C2, the claim as stated fails on the scenario of the specification:
    a span of 75 seconds sampled every 60 seconds gives two samples, and
    the quotient rounded down is one. *)
Lemma sample_length_floor_counterexample :
  ascending three_ticks
  ∧ head three_ticks = Some (0, 100)
  ∧ last three_ticks = Some (75000000, 102)
  ∧ ¬ (∀ out, sample 2 three_ticks one_minute = Ok out →
         Z.of_nat (length out) = (75000000 - 0) / one_minute).
Proof.
  split; [apply ascending_three_ticks|]. do 2 (split; [reflexivity|]).
  intros H. specialize (H _ eq_refl). vm_compute in H. discriminate H.
Qed.

Lemma sample_length_witness :
  ∃ out,
    sample 3 three_ticks one_minute = Ok out
    ∧ Z.of_nat (length out) = ceil_div (75000000 - 0) one_minute
    ∧ 75000000 - 0 ≤ Z.of_nat (length out) * one_minute
      < 75000000 - 0 + one_minute.
Proof.
  apply (sample_length 3 three_ticks (0, 100) (75000000, 102) one_minute).
  - reflexivity.
  - reflexivity.
  - repeat constructor; simpl; lia.
  - reflexivity.
  - vm_compute. lia.
  - simpl. lia.
Defined.

Lemma sample_interval_exceeds_span_witness :
  sample 1 [(0, 100); (30000000, 101)] one_minute = Ok [(0, 100)].
Proof.
  apply (sample_interval_exceeds_span 1 [(0, 100); (30000000, 101)]
           (0, 100) (30000000, 101) one_minute).
  - reflexivity.
  - reflexivity.
  - repeat constructor; simpl; lia.
  - unfold one_minute. simpl. lia.
  - lia.
Defined.

Lemma day_bounded_diff_count_witness :
  let day1 := ("09/03/2012"%string, take 3 two_days) in
  day1.2 ≠ []
  ∧ (∀ r, r ∈ day1.2 → trade_date r = day1.1)
  ∧ dropna (diff Z.sub (trade_date_time <$> day1.2))
    = gaps Z.sub (trade_date_time <$> day1.2)
  ∧ length (dropna (diff Z.sub (trade_date_time <$> day1.2)))
    = (length day1.2 - 1)%nat.
Proof.
  intros day1.
  apply (day_bounded_diff_count two_days []).
  vm_compute. left.
Defined.

Lemma price_quartile_counts_witness :
  let swapped := drop 3 two_days ++ take 3 two_days in
  ∃ rep rep',
    analyze_locals (λ x, x) 3 two_days = Ok rep
    ∧ analyze_locals (λ x, x) 3 swapped = Ok rep'
    ∧ (N_trade_price_q1 rep ≤ N_trade_price_q2 rep
       ∧ N_trade_price_q2 rep ≤ N_trade_price_q3 rep
       ∧ N_trade_price_q3 rep ≤ length two_days)%nat
    ∧ N_trade_price_q1 rep' = N_trade_price_q1 rep
    ∧ N_trade_price_q2 rep' = N_trade_price_q2 rep
    ∧ N_trade_price_q3 rep' = N_trade_price_q3 rep.
Proof.
  intros swapped. eexists. eexists.
  split; [vm_compute; reflexivity|]. split; [vm_compute; reflexivity|].
  match goal with
  | |- context [N_trade_price_q1 ?r] =>
      pose proof (price_quartile_counts (λ x, x) 3 two_days r
                    ltac:(vm_compute; reflexivity)) as H
  end.
  cbv zeta in H. destruct H as (_ & _ & _ & Hchain & _ & Hperm).
  split; [exact Hchain|].
  apply (Hperm 3%nat swapped).
  - unfold swapped. rewrite <- (take_drop 3 two_days) at 1.
    apply Permutation_app_comm.
  - vm_compute. reflexivity.
Defined.

Lemma bps_returns_witness :
  ∃ res,
    df_trade_price_res 3 two_days = Ok res
    ∧ (∀ r, r ∈ res → r.2.1 ≠ 0%Qc)
    ∧ dropna (s_returns res)
      = mjoin ((λ g, day_returns ((λ r, r.2.1) <$> g.2))
                 <$> groupby (λ r, r.2.2) res).
Proof.
  destruct (bps_returns (λ x, x) 3 two_days) with
    (rep := match analyze_locals (λ x, x) 3 two_days with
            | Ok rep => rep
            | Err _ => Report 0 0 0 None None None 0 0 0 None None None None
                         None None None [] []
            end)
    as (res & Hres & Hne & Hdays).
  - repeat constructor; by vm_compute.
  - vm_compute. reflexivity.
  - exists res. split; [done|]. split; [done|]. by apply Hdays.
Defined.

(** C4, the code at a failing input.  On a day whose highest price is half
    a unit above and whose lowest price is half a unit below the first
    price of the table, both deviations are reported as 0: the difference
    is cut to its whole part before it is multiplied by 10000.  Scaled
    first, the deviations are 5000 and -5000. *)
Theorem daily_price_deviation_truncated (sqrt : Qc → Qc) :
  ∃ rep,
    analyze_locals sqrt 1 half_unit_day = Ok rep
    ∧ daily_price_max_list rep = [0]
    ∧ daily_price_min_list rep = [0]
    ∧ ((Q2Qc 100.5 - Q2Qc 100) * Qc_of_Z 10000 = Qc_of_Z 5000)%Qc
    ∧ ((Q2Qc 99.5 - Q2Qc 100) * Qc_of_Z 10000 = Qc_of_Z (-5000))%Qc.
Proof.
  eexists. split; [vm_compute; reflexivity|].
  repeat split; by apply Qc_is_canon.
Qed.

(** An instance: on two days of trades the analysis returns, and its
    result is the table itself. *)
Example analyze_two_days (sqrt : Qc → Qc) :
  analyze sqrt 3 two_days = Ok two_days.
Proof.
  apply analyze_returns; [done|].
  intros g Hg. vm_compute in Hg.
  repeat (apply elem_of_cons in Hg as [->|Hg]); [| |by apply elem_of_nil in Hg].
  - repeat split; [repeat constructor; simpl; lia|simpl; lia|].
    intros r0 rn Hr0 Hrn. vm_compute in Hr0, Hrn. simplify_eq. vm_compute. lia.
  - repeat split; [repeat constructor|simpl; lia|].
    intros r0 rn Hr0 Hrn. vm_compute in Hr0, Hrn. simplify_eq. vm_compute. lia.
Qed.

(** * Further properties: [rount_ceil_minute] *)

Local Open Scope Z_scope.

Lemma datetime_second d : datetime_attr d "second" = Got ((d / 1000000) mod 60).
Proof. reflexivity. Qed.

Lemma datetime_microsecond d :
  datetime_attr d "microsecond" = Got (d mod 1000000).
Proof. reflexivity. Qed.

Lemma datetime_microsend d : datetime_attr d "microsend" = AttributeError.
Proof. reflexivity. Qed.

Lemma rount_ceil_minute_second_nonzero d :
  (d / 1000000) mod 60 ≠ 0 →
  rount_ceil_minute d
  = Got (d - timedelta ((d / 1000000) mod 60) (d mod 1000000) (-1)).
Proof.
  intros Hs. unfold rount_ceil_minute.
  rewrite datetime_second, datetime_microsecond. cbn [mbind attr_bind].
  by rewrite bool_decide_true.
Qed.

(** X1.  [rount_ceil_minute] raises [AttributeError] exactly on the times
    whose seconds field is zero, whole minutes included: only then is the
    misspelt attribute [microsend] read. *)
Theorem rount_ceil_minute_raises d :
  rount_ceil_minute d = AttributeError ↔ (d / 1000000) mod 60 = 0.
Proof.
  split.
  - intros Hr. destruct (decide ((d / 1000000) mod 60 = 0)) as [|Hs]; [done|].
    by rewrite rount_ceil_minute_second_nonzero in Hr.
  - intros Hs. unfold rount_ceil_minute.
    rewrite datetime_second, datetime_microsecond, datetime_microsend.
    cbn [mbind attr_bind].
    by rewrite bool_decide_false by (intros H; by apply H).
Qed.

(** X2.  On a time whose seconds field is not zero, [rount_ceil_minute]
    returns the next whole minute: a multiple of a minute that lies after
    the time and less than a minute after it.  Applied to its own result
    it raises. *)
Theorem rount_ceil_minute_next_minute d :
  (d / 1000000) mod 60 ≠ 0 →
  ∃ m,
    rount_ceil_minute d = Got m
    ∧ m = 60000000 * (d / 60000000 + 1)
    ∧ d < m < d + 60000000
    ∧ rount_ceil_minute m = AttributeError.
Proof.
  intros Hs. eexists. split; [by apply rount_ceil_minute_second_nonzero|].
  unfold timedelta.
  assert (Hdiv : d / 1000000 / 60 = d / 60000000).
  { rewrite Z.div_div by lia. done. }
  pose proof (Z.div_mod d 1000000 ltac:(lia)) as H1.
  pose proof (Z.div_mod (d / 1000000) 60 ltac:(lia)) as H2.
  pose proof (Z.mod_pos_bound d 1000000 ltac:(lia)) as H3.
  pose proof (Z.mod_pos_bound (d / 1000000) 60 ltac:(lia)) as H4.
  rewrite Hdiv in H2.
  assert (Hm : d - ((d / 1000000) mod 60 * 1000000 + d mod 1000000 + -1 * 60000000)
               = 60000000 * (d / 60000000 + 1)) by lia.
  rewrite Hm. split; [done|]. split; [lia|].
  apply rount_ceil_minute_raises.
  replace (60000000 * (d / 60000000 + 1)) with ((d / 60000000 + 1) * 60 * 1000000) by lia.
  rewrite Z.div_mul by lia. by rewrite Z.mod_mul.
Qed.

Lemma rount_ceil_minute_next_minute_witness :
  ∃ m, rount_ceil_minute 75500000 = Got m
    ∧ m = 60000000 * (75500000 / 60000000 + 1)
    ∧ 75500000 < m < 75500000 + 60000000
    ∧ rount_ceil_minute m = AttributeError.
Proof. apply rount_ceil_minute_next_minute. by vm_compute. Defined.

(** * Further properties: [sample] *)

Section SampleMore.
Context {A : Type}.
Implicit Types (df rest : list (srow A)) (r : srow A) (t delta : Z).

Lemma grid_lookup t delta n i u :
  grid t delta n !! i = Some u → u = t + Z.of_nat i * delta ∧ (i < n)%nat.
Proof.
  revert t i. induction n as [|n IH]; intros t i Hu; [done|].
  destruct i as [|i]; simpl in Hu.
  - simplify_eq. split; lia.
  - apply IH in Hu as [-> Hi]. split; lia.
Qed.

(** X3.  The sampling instants of a sorted day: the [i]-th sample is taken
    at [t_min + i * delta], and every sample is taken from [t_min] on and
    strictly before [t_max]. *)
Theorem sample_times fuel df r0 rn delta :
  head df = Some r0 →
  last df = Some rn →
  ascending df →
  0 < delta →
  (grid_length r0.1 rn.1 delta ≤ fuel)%nat →
  (length df ≤ fuel)%nat →
  ∃ out,
    sample fuel df delta = Ok out
    ∧ ∀ i p, out !! i = Some p →
        p.1 = r0.1 + Z.of_nat i * delta ∧ r0.1 ≤ p.1 < rn.1.
Proof.
  intros Hhead Hlast Hasc Hdelta Hf1 Hf2.
  destruct df as [|r0' rest]; [done|]. simpl in Hhead. simplify_eq.
  pose proof (ascending_last_ge _ _ _ Hasc Hlast) as Hle.
  eexists. split.
  { apply sample_ascending; eauto. simpl in Hf2. lia. }
  intros i p Hp. rewrite list_lookup_fmap in Hp.
  destruct (grid _ _ _ !! i) as [u|] eqn:Hu; [|done].
  simpl in Hp. simplify_eq. simpl.
  apply grid_lookup in Hu as [-> Hi]. split; [done|].
  pose proof (grid_length_bounds r0.1 rn.1 delta Hdelta Hle) as Hb.
  simpl in Hb. nia.
Qed.


(** X5.  Whatever the order of the rows, when [sample] returns, every value
    it emits is the data of a row of the table: nothing is computed from
    two rows. *)
Theorem sample_never_interpolates fuel df delta out :
  sample fuel df delta = Ok out →
  ∀ p, p ∈ out → ∃ r, r ∈ df ∧ p.2 = r.2.
Proof.
  intros Hout [t v] Hp. by eapply sample_values_from_table.
Qed.

(** X6.  A day whose rows all bear the same timestamp yields no sample,
    whatever the interval and the fuel. *)
Theorem sample_flat_day fuel df delta c :
  df ≠ [] →
  (∀ r, r ∈ df → r.1 = c) →
  sample fuel df delta = Ok [].
Proof.
  intros Hne Hc. destruct df as [|r0 rest]; [done|].
  assert (Hmin : col_min (r0 :: rest) = Some c ∧ col_max (r0 :: rest) = Some c).
  { simpl. rewrite (Hc r0) by left.
    assert (Hrest : Forall (λ r, r.1 = c) rest).
    { apply Forall_forall. intros r Hr. apply Hc. by right. }
    clear -Hrest. induction Hrest as [|r l Hr _ [IH1 IH2]]; [done|].
    simpl. rewrite Hr, Z.min_id, Z.max_id. done. }
  destruct Hmin as [Hmin Hmax]. unfold sample. rewrite Hmin, Hmax.
  cbn [irow lookup list_lookup mbind result_bind].
  destruct fuel; simpl; by rewrite bool_decide_false by lia.
Qed.

(** X7.  The rows that close a sorted day are never sampled: every value
    [sample] emits is the data of a row whose timestamp is strictly before
    the last timestamp of the day. *)
Theorem sample_skips_closing_rows fuel df r0 rn delta :
  head df = Some r0 →
  last df = Some rn →
  ascending df →
  0 < delta →
  (grid_length r0.1 rn.1 delta ≤ fuel)%nat →
  (length df ≤ fuel)%nat →
  ∃ out,
    sample fuel df delta = Ok out
    ∧ ∀ p, p ∈ out → ∃ r, r ∈ df ∧ r.1 < rn.1 ∧ r.1 ≤ p.1 ∧ p.2 = r.2.
Proof.
  intros Hhead Hlast Hasc Hdelta Hf1 Hf2.
  destruct df as [|r0' rest]; [done|]. simpl in Hhead. simplify_eq.
  pose proof (ascending_last_ge _ _ _ Hasc Hlast) as Hle.
  eexists. split.
  { apply sample_ascending; eauto. simpl in Hf2. lia. }
  intros p Hp. apply list_elem_of_fmap in Hp as (u & -> & Hu). simpl.
  apply elem_of_grid in Hu as (k & Hk & ->).
  pose proof (grid_length_bounds r0.1 rn.1 delta Hdelta Hle) as Hb.
  simpl in Hb.
  assert (Hlt : r0.1 + Z.of_nat k * delta < rn.1) by nia.
  unfold latest_before.
  destruct (last (filter _ (r0 :: rest))) as [r|] eqn:Hl.
  - apply last_Some_elem_of, list_elem_of_filter in Hl as [Hr1 Hr2].
    exists r. simpl. repeat split; [done|lia|lia].
  - exists r0. simpl. repeat split; [left|lia|nia].
Qed.
End SampleMore.

Lemma sample_times_witness :
  ∃ out,
    sample 3 three_ticks one_minute = Ok out
    ∧ ∀ i p, out !! i = Some p →
        p.1 = 0 + Z.of_nat i * one_minute ∧ 0 ≤ p.1 < 75000000.
Proof.
  apply (sample_times 3 three_ticks (0, 100) (75000000, 102) one_minute).
  - reflexivity.
  - reflexivity.
  - repeat constructor; simpl; lia.
  - reflexivity.
  - vm_compute. lia.
  - simpl. lia.
Defined.


Lemma sample_never_interpolates_witness :
  ∃ r, r ∈ three_ticks ∧ (60000000, 101).2 = r.2.
Proof.
  apply (sample_never_interpolates 2 three_ticks one_minute
           [(0, 100); (60000000, 101)]).
  - reflexivity.
  - right. left.
Defined.

Lemma sample_flat_day_witness :
  sample 0 [(5, 100); (5, 101); (5, 102)] one_minute = Ok [].
Proof.
  apply (sample_flat_day 0 [(5, 100); (5, 101); (5, 102)] one_minute 5).
  - discriminate.
  - intros r Hr. repeat (apply elem_of_cons in Hr as [->|Hr]; [reflexivity|]).
    by apply elem_of_nil in Hr.
Defined.

Lemma sample_skips_closing_rows_witness :
  ∃ out,
    sample 3 three_ticks one_minute = Ok out
    ∧ ∀ p, p ∈ out →
        ∃ r, r ∈ three_ticks ∧ r.1 < 75000000 ∧ r.1 ≤ p.1 ∧ p.2 = r.2.
Proof.
  apply (sample_skips_closing_rows 3 three_ticks (0, 100) (75000000, 102)
           one_minute).
  - reflexivity.
  - reflexivity.
  - repeat constructor; simpl; lia.
  - reflexivity.
  - vm_compute. lia.
  - simpl. lia.
Defined.

(** * Bounds on the statistics of a column *)

Local Open Scope Qc_scope.

Lemma Qc_of_Z_plus (a b : Z) : Qc_of_Z (a + b) = Qc_of_Z a + Qc_of_Z b.
Proof.
  apply Qc_is_canon. unfold Qc_of_Z, Qcplus, Q2Qc. cbn [this].
  rewrite Qred_correct, inject_Z_plus. reflexivity.
Qed.

Lemma Qc_of_Z_le (a b : Z) : (a ≤ b)%Z ↔ Qc_of_Z a ≤ Qc_of_Z b.
Proof. unfold Qc_of_Z, Qcle. cbn [this]. by rewrite <- Zle_Qle. Qed.

Lemma Qc_of_Z_0 : Qc_of_Z 0 = 0.
Proof. by apply Qc_is_canon. Qed.

Lemma Qc_of_nat_S (n : nat) : Qc_of_nat (S n) = Qc_of_nat n + 1.
Proof.
  unfold Qc_of_nat. rewrite Nat2Z.inj_succ, <- Z.add_1_r, Qc_of_Z_plus.
  f_equal; by apply Qc_is_canon.
Qed.

Lemma Qc_of_nat_pos (n : nat) : (0 < n)%nat → 0 < Qc_of_nat n.
Proof. intros Hn. rewrite <- Qc_of_nat_0. by apply Qc_of_nat_lt. Qed.

Lemma Qcsum_lower (s : list Qc) (a : Qc) :
  Forall (λ x, a ≤ x) s → a * Qc_of_nat (length s) ≤ Qcsum s.
Proof.
  induction 1 as [|x s Hx _ IH].
  - simpl. rewrite Qc_of_nat_0, Qcmult_0_r. apply Qcle_refl.
  - cbn [length]. rewrite Qc_of_nat_S, Qcsum_cons.
    clear -Hx IH. qc_to_q. nra.
Qed.

Lemma Qcsum_upper (s : list Qc) (b : Qc) :
  Forall (λ x, x ≤ b) s → Qcsum s ≤ b * Qc_of_nat (length s).
Proof.
  induction 1 as [|x s Hx _ IH].
  - simpl. rewrite Qc_of_nat_0, Qcmult_0_r. apply Qcle_refl.
  - cbn [length]. rewrite Qc_of_nat_S, Qcsum_cons.
    clear -Hx IH. qc_to_q. nra.
Qed.

Lemma Qcdiv_mult_cancel (x n : Qc) : n ≠ 0 → x / n * n = x.
Proof.
  intros Hn. unfold Qcdiv.
  by rewrite <- Qcmult_assoc, Qcmult_inv_l, Qcmult_1_r.
Qed.

(** The mean of a column lies between any two bounds of its values. *)
Lemma mean_bounds (s : list Qc) (a b m : Qc) :
  Forall (λ x, a ≤ x ∧ x ≤ b) s → mean s = Some m → a ≤ m ∧ m ≤ b.
Proof.
  intros Hs Hm. destruct s as [|x s]; [done|].
  unfold mean in Hm. injection Hm as <-.
  set (l := x :: s) in *.
  assert (0 < Qc_of_nat (length l)) as Hn by (apply Qc_of_nat_pos; simpl; lia).
  assert (Qc_of_nat (length l) ≠ 0) as Hn0.
  { intros H0. rewrite H0 in Hn. by apply Qclt_not_eq in Hn. }
  split.
  - apply (Qcmult_le_mono_pos_r _ _ _ Hn). rewrite Qcdiv_mult_cancel by done.
    apply (Qcsum_lower l). eapply Forall_impl; [exact Hs|]. by intros ? [??].
  - apply (Qcmult_le_mono_pos_r _ _ _ Hn). rewrite Qcdiv_mult_cancel by done.
    apply (Qcsum_upper l). eapply Forall_impl; [exact Hs|]. by intros ? [??].
Qed.

Lemma nth_sorted_elem_of (s : list Qc) (x0 : Qc) (i : nat) :
  (i < length s)%nat → nth i (merge_sort Qcle s) x0 ∈ s.
Proof.
  intros Hi. rewrite <- (merge_sort_Permutation Qcle s) at 2.
  apply list_elem_of_In, nth_In.
  by rewrite (Permutation_length (merge_sort_Permutation Qcle s)).
Qed.

(** The median of a column lies between any two bounds of its values. *)
Lemma median_bounds (s : list Qc) (a b m : Qc) :
  Forall (λ x, a ≤ x ∧ x ≤ b) s → median s = Some m → a ≤ m ∧ m ≤ b.
Proof.
  intros Hs Hm. unfold median in Hm.
  pose proof (Permutation_length (merge_sort_Permutation Qcle s)) as Hlen.
  destruct (merge_sort Qcle s) as [|x0 v] eqn:Hv; [done|].
  rewrite <- Hv in Hm, Hlen.
  assert (0 < length s)%nat as Hpos by (rewrite <- Hlen, Hv; simpl; lia).
  rewrite Hlen in Hm. rewrite Forall_forall in Hs.
  assert (Hhalf : (length s / 2 < length s)%nat)
    by (apply Nat.div_lt; lia).
  destruct (Nat.even (length s)).
  - apply (inj Some) in Hm as <-.
    destruct (Hs _ (nth_sorted_elem_of s x0 (length s / 2 - 1) ltac:(lia)))
      as [H1 H2].
    destruct (Hs _ (nth_sorted_elem_of s x0 (length s / 2) Hhalf)) as [H3 H4].
    set (u := nth (length s / 2 - 1) (merge_sort Qcle s) x0) in *.
    set (w := nth (length s / 2) (merge_sort Qcle s) x0) in *.
    clearbody u w. clear -H1 H2 H3 H4.
    assert ((u + w) / 2 * 2 = u + w) as Hc by (by apply Qcdiv_mult_cancel).
    assert (0 < (2 : Qc)) as H2pos by done.
    split; apply (Qcmult_le_mono_pos_r _ _ _ H2pos); rewrite Hc;
      clear Hc H2pos; qc_to_q; lra.
  - apply (inj Some) in Hm as <-. apply Hs, nth_sorted_elem_of, Hhalf.
Qed.

(** The running maximum and minimum of a column bound its values and are
    among them. *)
Lemma col_fold_Zmax (s : list Z) (m : Z) :
  col_fold Z.max s = Some m → m ∈ s ∧ Forall (λ x, x ≤ m)%Z s.
Proof.
  destruct s as [|x s]; [done|]. simpl. intros Hm. injection Hm as <-.
  revert x. induction s as [|y s IH]; intros x; simpl.
  - split; [left|]. by repeat constructor.
  - destruct (IH (Z.max x y)) as [Hin Hall].
    apply Forall_cons in Hall as [Hxy Hall]. split.
    + apply elem_of_cons in Hin as [Heq|Hin]; [|by do 2 right].
      rewrite Heq. destruct (Z.max_spec x y) as [[_ ->]|[_ ->]];
        [right; left|left].
    + repeat constructor; [lia|lia|done].
Qed.

Lemma col_fold_Zmin (s : list Z) (m : Z) :
  col_fold Z.min s = Some m → m ∈ s ∧ Forall (λ x, m ≤ x)%Z s.
Proof.
  destruct s as [|x s]; [done|]. simpl. intros Hm. injection Hm as <-.
  revert x. induction s as [|y s IH]; intros x; simpl.
  - split; [left|]. by repeat constructor.
  - destruct (IH (Z.min x y)) as [Hin Hall].
    apply Forall_cons in Hall as [Hxy Hall]. split.
    + apply elem_of_cons in Hin as [Heq|Hin]; [|by do 2 right].
      rewrite Heq. destruct (Z.min_spec x y) as [[_ ->]|[_ ->]];
        [left|right; left].
    + repeat constructor; [lia|lia|done].
Qed.

Lemma Qc_max_spec (x y : Qc) :
  (Qc_max x y = x ∨ Qc_max x y = y) ∧ x ≤ Qc_max x y ∧ y ≤ Qc_max x y.
Proof.
  unfold Qc_max. destruct (decide (x ≤ y)) as [H|H].
  - split; [by right|]. split; [done|apply Qcle_refl].
  - split; [by left|]. split; [apply Qcle_refl|].
    apply Qclt_le_weak. by apply Qclt_nge.
Qed.

Lemma Qc_min_spec (x y : Qc) :
  (Qc_min x y = x ∨ Qc_min x y = y) ∧ Qc_min x y ≤ x ∧ Qc_min x y ≤ y.
Proof.
  unfold Qc_min. destruct (decide (y ≤ x)) as [H|H].
  - split; [by right|]. split; [done|apply Qcle_refl].
  - split; [by left|]. split; [apply Qcle_refl|].
    apply Qclt_le_weak. by apply Qclt_nge.
Qed.

Lemma col_fold_Qc_max (s : list Qc) (m : Qc) :
  col_fold Qc_max s = Some m → m ∈ s ∧ Forall (λ x, x ≤ m) s.
Proof.
  destruct s as [|x s]; [done|]. simpl. intros Hm. injection Hm as <-.
  revert x. induction s as [|y s IH]; intros x; simpl.
  - split; [left|]. repeat constructor. apply Qcle_refl.
  - destruct (IH (Qc_max x y)) as [Hin Hall].
    destruct (Qc_max_spec x y) as (Hcase & Hx & Hy).
    apply Forall_cons in Hall as [Hxy Hall]. split.
    + apply elem_of_cons in Hin as [Heq|Hin]; [|by do 2 right].
      rewrite Heq. destruct Hcase as [->| ->]; [left|right; left].
    + repeat constructor; [by trans (Qc_max x y)..|done].
Qed.

Lemma col_fold_Qc_min (s : list Qc) (m : Qc) :
  col_fold Qc_min s = Some m → m ∈ s ∧ Forall (λ x, m ≤ x) s.
Proof.
  destruct s as [|x s]; [done|]. simpl. intros Hm. injection Hm as <-.
  revert x. induction s as [|y s IH]; intros x; simpl.
  - split; [left|]. repeat constructor. apply Qcle_refl.
  - destruct (IH (Qc_min x y)) as [Hin Hall].
    destruct (Qc_min_spec x y) as (Hcase & Hx & Hy).
    apply Forall_cons in Hall as [Hxy Hall]. split.
    + apply elem_of_cons in Hin as [Heq|Hin]; [|by do 2 right].
      rewrite Heq. destruct Hcase as [->| ->]; [left|right; left].
    + repeat constructor; [by trans (Qc_min x y)..|done].
Qed.

(** * More on the analysis *)

Lemma Zsum_app (l k : list Z) : Zsum (l ++ k) = (Zsum l + Zsum k)%Z.
Proof. induction l as [|x l IH]; simpl; [done|]. unfold Zsum in *. simpl. lia. Qed.

Lemma Zsum_Permutation (l k : list Z) : l ≡ₚ k → Zsum l = Zsum k.
Proof.
  unfold Zsum. induction 1; simpl; lia.
Qed.

Lemma Zsum_groups {B : Type} (f : B → Z) (gs : list (string * list B)) :
  Zsum ((λ g, Zsum (f <$> g.2)) <$> gs) = Zsum (f <$> mjoin gs.*2).
Proof.
  induction gs as [|g gs IH]; [done|].
  rewrite !fmap_cons. change (mjoin (?x :: ?l)) with (x ++ mjoin l).
  rewrite fmap_app, Zsum_app, <- IH. done.
Qed.

Lemma Qcsum_of_Z (l : list Z) : Qcsum (Qc_of_Z <$> l) = Qc_of_Z (Zsum l).
Proof.
  induction l as [|x l IH]; [symmetry; apply Qc_of_Z_0|].
  rewrite fmap_cons, Qcsum_cons, IH, <- Qc_of_Z_plus. done.
Qed.

Lemma mean_is_Some (s : list Qc) : s ≠ [] → is_Some (mean s).
Proof. destruct s; [done|]. by eexists. Qed.

Lemma median_is_Some (s : list Qc) : s ≠ [] → is_Some (median s).
Proof.
  intros Hs. unfold median.
  pose proof (Permutation_length (merge_sort_Permutation Qcle s)) as Hlen.
  destruct (merge_sort Qcle s) as [|x0 v]; [by destruct s|].
  destruct (Nat.even _); by eexists.
Qed.

Lemma groupby_nonempty {B : Type} (key : B → string) (df : list B) :
  df ≠ [] → groupby key df ≠ [].
Proof.
  intros Hdf Hg. pose proof (groupby_partition key df) as Hp.
  rewrite Hg in Hp. apply Permutation_length in Hp. by destruct df.
Qed.

Lemma int_mono (x y : Qc) : x ≤ y → (int x ≤ int y)%Z.
Proof.
  assert (Hint : ∀ z : Qc,
    int z = if decide (0 ≤ Qnum z)%Z then Qfloor z else Qceiling z).
  { intros [[n d] Hc]. unfold int, Qceiling, Qfloor. cbn [this Qnum Qden Qopp].
    destruct (decide (0 ≤ n)%Z) as [Hn|Hn].
    - apply Z.quot_div_nonneg; lia.
    - rewrite <- (Z.opp_involutive n) at 1.
      rewrite Z.quot_opp_l by lia. f_equal.
      apply Z.quot_div_nonneg; lia. }
  intros Hxy. rewrite !Hint.
  assert (Hsign : ∀ z : Qc, (0 ≤ Qnum z)%Z ↔ (0 <= z)%Q).
  { intros [[n d] Hc]. unfold Qle. cbn. lia. }
  destruct (decide (0 ≤ Qnum x)%Z) as [Hx|Hx], (decide (0 ≤ Qnum y)%Z) as [Hy|Hy].
  - by apply Qfloor_resp_le.
  - exfalso. apply Hy, Hsign. apply Hsign in Hx. unfold Qcle in Hxy.
    by eapply Qle_trans.
  - trans 0%Z.
    + assert (Hneg : (x <= 0)%Q).
      { apply Qnot_lt_le. intros Hlt. apply Hx, Hsign. by apply Qlt_le_weak. }
      change 0%Z with (Qceiling 0). by apply Qceiling_resp_le.
    + change 0%Z with (Qfloor 0). apply Qfloor_resp_le. by apply Hsign.
  - by apply Qceiling_resp_le.
Qed.

Lemma py_min_le_max (s : list Qc) : py_min s ≤ py_max s.
Proof.
  unfold py_min, py_max. destruct s as [|x s]; [apply Qcle_refl|].
  destruct (col_fold Qc_min (x :: s)) as [lo|] eqn:Hlo; [|done].
  destruct (col_fold Qc_max (x :: s)) as [hi|] eqn:Hhi; [|done].
  apply col_fold_Qc_min in Hlo as [_ Hlo]. apply col_fold_Qc_max in Hhi as [_ Hhi].
  apply Forall_cons in Hlo as [Hlo _]. apply Forall_cons in Hhi as [Hhi _].
  simpl. by trans x.
Qed.

(** The gaps of a sorted column are not negative. *)
Lemma gaps_sorted (l : list Z) :
  Sorted Z.le l → Forall (λ d, 0 ≤ d)%Z (gaps Z.sub l).
Proof.
  unfold gaps. induction 1 as [|x l Hl IH Hx]; [constructor|].
  destruct l as [|y l]; [constructor|].
  simpl. constructor.
  - apply HdRel_inv in Hx. lia.
  - exact IH.
Qed.

Lemma total_seconds_nonneg (d : Z) : (0 ≤ d)%Z → (0 ≤ total_seconds d)%Qc.
Proof.
  intros Hd. unfold total_seconds.
  assert (0 < Qc_of_Z 1000000)%Qc as Hpos by done.
  apply (Qcmult_le_mono_pos_r _ _ _ Hpos).
  rewrite Qcmult_0_l, Qcdiv_mult_cancel.
  - rewrite <- Qc_of_Z_0. exact (proj1 (Qc_of_Z_le 0 d) Hd).
  - intros H0. rewrite H0 in Hpos. by apply Qclt_not_eq in Hpos.
Qed.

Lemma quantile_le_max (s : list Qc) (q x hi : Qc) :
  0 ≤ q → q ≤ 1 → quantile s q = Some x → Forall (λ y, y ≤ hi) s → x ≤ hi.
Proof.
  intros H0 H1 Hq Hhi. unfold quantile in Hq.
  pose proof (StronglySorted_merge_sort Qcle s) as Hv.
  pose proof (merge_sort_Permutation Qcle s) as Hp.
  destruct (merge_sort Qcle s) as [|x0 v] eqn:Hs; [done|].
  apply (inj Some) in Hq as <-.
  set (l := x0 :: v) in *.
  set (m := Qc_of_nat (length l - 1)).
  change (score_at l x0 (m * q) ≤ hi).
  assert (0 ≤ m) as Hm.
  { rewrite <- Qc_of_nat_0. apply Qc_of_nat_le. lia. }
  destruct (score_at_bounds l x0 (m * q) Hv) as (Hlo & _ & Hup); [| |done|].
  - clear -H0 Hm. qc_to_q. nra.
  - fold m. clear -H1 Hm. qc_to_q. nra.
  - rewrite <- Hp in Hhi. rewrite Forall_forall in Hhi.
    assert (Hlast : nth (length l - 1) l x0 ≤ hi).
    { apply Hhi, list_elem_of_In, nth_In. simpl. lia. }
    destruct (decide (Z.to_nat (Qfloor (m * q)%Qc) = length l - 1)%nat) as [Heq|Hne].
    + (* the position is the last one: the fraction is zero *)
      unfold score_at. rewrite Heq. fold m.
      assert (m * q ≤ m) as Hle by (clear -H1 Hm; qc_to_q; nra).
      destruct (floor_spec (m * q)) as [Hf _].
      { clear -H0 Hm. qc_to_q. nra. }
      rewrite Heq in Hf. fold m in Hf.
      assert (m * q = m) as -> by (by apply Qcle_antisym).
      rewrite decide_True; [done|]. unfold m. ring.
    + trans (nth (length l - 1) l x0); [|done].
      apply Hup; [lia|simpl; lia].
Qed.

Lemma count_below_max (s : list Qc) (x : Qc) :
  s ≠ [] → Forall (λ y, y ≤ x) s → x ∈ s →
  (count_below s (Some x) < length s)%nat.
Proof.
  intros _ _ Hx. simpl. induction s as [|y s IH]; [by apply elem_of_nil in Hx|].
  rewrite filter_cons. apply elem_of_cons in Hx as [->|Hx].
  - rewrite decide_False by (apply Qcle_not_lt, Qcle_refl).
    simpl. pose proof (length_filter (λ v, v < y) s). lia.
  - specialize (IH Hx). destruct (decide (y < x)); simpl; lia.
Qed.

Section AnalysisMore.
Variable sqrt : Qc → Qc.

Local Open Scope Qc_scope.

(** X8.  The mean daily volume is the whole traded quantity divided by the
    number of distinct days of the table. *)
Theorem mean_daily_volume fuel df rep :
  analyze_locals sqrt fuel df = Ok rep →
  mean_daily_vol rep
  = Some (Qc_of_Z (Zsum (trade_quantity <$> df))
          / Qc_of_nat (length (remove_dups (trade_date <$> df)))).
Proof.
  intros Hrep.
  apply analyze_locals_Ok in Hrep as (res & first & _ & Hfirst & ->).
  cbn [mean_daily_vol].
  assert (df ≠ []) as Hne by (by destruct df).
  set (vol := (λ g, Zsum (trade_quantity <$> g.2)) <$> groupby trade_date df).
  assert (Hlen : length (Qc_of_Z <$> vol)
                 = length (remove_dups (trade_date <$> df))).
  { unfold vol. rewrite !length_fmap, <- (length_fmap fst).
    apply Permutation_length, groupby_keys. }
  assert (Hsum : Qcsum (Qc_of_Z <$> vol)
                 = Qc_of_Z (Zsum (trade_quantity <$> df))).
  { rewrite Qcsum_of_Z. f_equal. unfold vol. rewrite Zsum_groups.
    apply Zsum_Permutation. by rewrite groupby_partition. }
  unfold mean. destruct (Qc_of_Z <$> vol) as [|x l] eqn:Hvol.
  - exfalso. apply (groupby_nonempty trade_date df Hne).
    apply fmap_nil_inv in Hvol. unfold vol in Hvol. by apply fmap_nil_inv in Hvol.
  - by rewrite Hsum, Hlen.
Qed.

(** X9.  The daily volume statistics are ordered: the mean and the median
    lie between the minimum and the maximum. *)
Theorem daily_volume_order fuel df rep :
  analyze_locals sqrt fuel df = Ok rep →
  ∃ lo hi m med,
    min_daily_vol rep = Some lo
    ∧ max_daily_vol rep = Some hi
    ∧ mean_daily_vol rep = Some m
    ∧ median_daily_vol rep = Some med
    ∧ (lo ≤ hi)%Z
    ∧ Qc_of_Z lo ≤ m ∧ m ≤ Qc_of_Z hi
    ∧ Qc_of_Z lo ≤ med ∧ med ≤ Qc_of_Z hi.
Proof.
  intros Hrep.
  apply analyze_locals_Ok in Hrep as (res & first & _ & Hfirst & ->).
  cbn [min_daily_vol max_daily_vol mean_daily_vol median_daily_vol].
  assert (df ≠ []) as Hne by (by destruct df).
  set (vol := (λ g, Zsum (trade_quantity <$> g.2)) <$> groupby trade_date df).
  assert (vol ≠ []) as Hvol.
  { unfold vol. intros H%fmap_nil_inv. by apply (groupby_nonempty trade_date df). }
  destruct (col_fold Z.min vol) as [lo|] eqn:Hlo; [|by destruct vol].
  destruct (col_fold Z.max vol) as [hi|] eqn:Hhi; [|by destruct vol].
  assert (Qc_of_Z <$> vol ≠ []) as Hvol' by (by intros H%fmap_nil_inv).
  destruct (mean_is_Some _ Hvol') as [m Hm].
  destruct (median_is_Some _ Hvol') as [med Hmed].
  exists lo, hi, m, med. do 4 (split; [done|]).
  apply col_fold_Zmin in Hlo as [Hlo_in Hlo].
  apply col_fold_Zmax in Hhi as [_ Hhi].
  rewrite Forall_forall in Hlo, Hhi.
  assert (Hall : Forall (λ x, Qc_of_Z lo ≤ x ∧ x ≤ Qc_of_Z hi) (Qc_of_Z <$> vol)).
  { apply Forall_fmap, Forall_forall. intros x Hx. simpl.
    split; apply (proj1 (Qc_of_Z_le _ _)); [by apply Hlo|by apply Hhi]. }
  split; [by apply Hhi|].
  destruct (mean_bounds _ _ _ _ Hall Hm), (median_bounds _ _ _ _ Hall Hmed).
  done.
Qed.


(** X11.  The numbers of interarrival times below their quartiles increase
    with the quartile, and the largest, with the number of days added,
    stays below the number of rows. *)
Theorem inter_time_quartile_counts fuel df rep :
  analyze_locals sqrt fuel df = Ok rep →
  (N_inter_time_q1 rep ≤ N_inter_time_q2 rep
   ∧ N_inter_time_q2 rep ≤ N_inter_time_q3 rep
   ∧ N_inter_time_q3 rep + length (remove_dups (trade_date <$> df))
     ≤ length df)%nat.
Proof.
  intros Hrep.
  apply analyze_locals_Ok in Hrep as (res & first & _ & _ & ->).
  cbn [N_inter_time_q1 N_inter_time_q2 N_inter_time_q3].
  split; [apply count_below_quantile_mono; by vm_compute|].
  split; [apply count_below_quantile_mono; by vm_compute|].
  pose proof (count_below_length (s_inter_time df)
                (quantile (s_inter_time df) (Q2Qc 0.75))) as Hle.
  pose proof (length_s_inter_time df) as Hlen.
  pose proof (Permutation_length (groupby_keys trade_date df)) as Hkeys.
  rewrite length_fmap in Hkeys. lia.
Qed.

(** X12.  When the rows of every day are in ascending order of their
    timestamps, no interarrival time is negative. *)
Theorem inter_times_nonnegative df :
  (∀ g, g ∈ groupby trade_date df →
     Sorted Z.le (trade_date_time <$> g.2)) →
  Forall (λ x, 0 ≤ x) (s_inter_time df).
Proof.
  intros Hdays. unfold s_inter_time.
  rewrite dropna_mjoin, <- list_fmap_compose.
  apply Forall_fmap, Forall_forall. intros d Hd. simpl.
  apply list_elem_of_join in Hd as (l & Hd & Hl).
  apply list_elem_of_fmap in Hl as (g & -> & Hg). simpl in Hd.
  rewrite dropna_diff in Hd.
  apply total_seconds_nonneg.
  pose proof (gaps_sorted _ (Hdays g Hg)) as Hgaps.
  rewrite Forall_forall in Hgaps. by apply Hgaps.
Qed.

(** X13.  The two lists of daily price deviations hold one entry per
    distinct day; every entry is a multiple of 10000, and the entry of the
    minimum never exceeds the entry of the maximum of the same day. *)
Theorem daily_price_lists_shape fuel df rep :
  analyze_locals sqrt fuel df = Ok rep →
  length (daily_price_max_list rep) = length (remove_dups (trade_date <$> df))
  ∧ length (daily_price_min_list rep) = length (remove_dups (trade_date <$> df))
  ∧ ∀ i hi lo,
      daily_price_max_list rep !! i = Some hi →
      daily_price_min_list rep !! i = Some lo →
      (lo ≤ hi ∧ hi mod 10000 = 0 ∧ lo mod 10000 = 0)%Z.
Proof.
  intros Hrep.
  destruct (daily_price_lists sqrt fuel df rep Hrep) as (first & _ & -> & ->).
  pose proof (Permutation_length (groupby_keys trade_date df)) as Hkeys.
  rewrite length_fmap in Hkeys.
  rewrite !length_fmap. do 2 (split; [done|]).
  intros i hi lo Hhi Hlo. rewrite list_lookup_fmap in Hhi, Hlo.
  destruct (groupby trade_date df !! i) as [g|]; [|done].
  simpl in Hhi, Hlo. simplify_eq.
  split; [|split].
  - apply Z.mul_le_mono_nonneg_l; [lia|]. apply int_mono.
    pose proof (py_min_le_max (trade_price <$> g.2)) as Hmm.
    clear -Hmm. qc_to_q. lra.
  - by rewrite Z.mul_comm, Z.mod_mul.
  - by rewrite Z.mul_comm, Z.mod_mul.
Qed.

(** X14.  On a table with at least one row, every day of which is sorted
    by timestamp, the analysis returns once the fuel covers the rows and
    the three-minute grid of every day. *)
Theorem analyze_sorted_days fuel df :
  df ≠ [] →
  (∀ g, g ∈ groupby trade_date df → day_fits fuel g.2) →
  analyze sqrt fuel df = Ok df.
Proof. apply analyze_returns. Qed.

(** X15.  Every row of the resampled table carries the price and the date
    of one trade of the table: a price is never attached to a date on
    which it was not traded. *)
Theorem resampled_rows_are_trades fuel df res :
  df_trade_price_res fuel df = Ok res →
  ∀ r, r ∈ res →
    ∃ tr, tr ∈ df ∧ r.2.1 = trade_price tr ∧ r.2.2 = trade_date tr.
Proof.
  intros Hres r Hr.
  destruct (df_trade_price_res_from_table fuel df res Hres r Hr)
    as (tr & Htr & Heq).
  exists tr. rewrite Heq. done.
Qed.

(** X16.  The count of prices below the third quartile is strictly less
    than the number of rows: the highest price is never counted. *)
Theorem price_quartile_counts_strict fuel df rep :
  analyze_locals sqrt fuel df = Ok rep →
  (N_trade_price_q3 rep < length df)%nat.
Proof.
  intros Hrep.
  apply analyze_locals_Ok in Hrep as (res & first & _ & Hfirst & ->).
  cbn [N_trade_price_q3].
  set (price := trade_price <$> df).
  assert (price ≠ []) as Hne by (by destruct df).
  destruct (col_fold Qc_max price) as [hi|] eqn:Hhi; [|by destruct price].
  apply col_fold_Qc_max in Hhi as [Hin Hhi].
  rewrite <- (length_fmap trade_price df). fold price.
  destruct (quantile price (Q2Qc 0.75)) as [x|] eqn:Hq;
    [|simpl; destruct price; [done|simpl; lia]].
  assert (x ≤ hi) as Hx.
  { eapply (quantile_le_max price (Q2Qc 0.75)); [by vm_compute..|done|done]. }
  eapply Nat.le_lt_trans; [by apply count_below_mono|].
  by apply count_below_max.
Qed.

(** X17.  Run on a file that holds such a table, the script ends at the
    end of the file and has printed nothing, whatever arguments follow the
    file name. *)
Theorem script_prints_nothing (read_table : string → result (list trade))
    fuel prog file_name rest df :
  read_table file_name = Ok df →
  df ≠ [] →
  (∀ g, g ∈ groupby trade_date df → day_fits fuel g.2) →
  script sqrt read_table fuel (prog :: file_name :: rest) = Run [] Finished.
Proof.
  intros Hread Hne Hdays. unfold script.
  rewrite decide_False by (simpl; lia).
  cbn [irow lookup list_lookup mbind result_bind].
  unfold analyze_file. rewrite Hread. cbn [mbind result_bind].
  by rewrite analyze_returns.
Qed.
End AnalysisMore.

Lemma mapM_cons {B C : Type} (h : B → result C) (x : B) (l : list B) :
  mapM h (x :: l) = y ← h x ; k ← mapM h l ; mret (y :: k).
Proof. reflexivity. Qed.

(** X18.  On a table whose days are sorted, the resampling of all days
    returns, and the resampled table has as many rows as the three-minute
    grids of the days together. *)
Theorem resampled_table_length fuel df :
  (∀ g, g ∈ groupby trade_date df → day_fits fuel g.2) →
  ∃ res,
    df_trade_price_res fuel df = Ok res
    ∧ length res
      = sum_list ((λ g, day_grid_length g.2) <$> groupby trade_date df).
Proof.
  intros Hdays. unfold df_trade_price_res.
  assert (Hne : Forall (λ g : string * list trade, g.2 ≠ [] ∧ day_fits fuel g.2)
                  (groupby trade_date df)).
  { apply Forall_forall. intros g Hg. split; [|by apply Hdays].
    by apply elem_of_groupby in Hg as (_ & ? & _). }
  revert Hne. generalize (groupby trade_date df). intros gs Hgs.
  induction Hgs as [|g gs [Hg1 Hg2] _ (res & Hres & Hlen)].
  - by exists [].
  - apply bind_Ok in Hres as (days & Hdays' & Hres). injection Hres as <-.
    destruct (g.2) as [|r0 rows] eqn:Hrows; [done|].
    destruct (last (r0 :: rows)) as [rn|] eqn:Hlast;
      [|by apply last_None in Hlast].
    destruct Hg2 as (Hasc & Hlen2 & Hgrid).
    set (f := λ r, (trade_date_time r, (trade_price r, trade_date r))) in *.
    assert (Hsample : sample fuel (f <$> g.2) three_minutes
              = Ok ((λ u, (u, (default (f r0)
                                 (latest_before u (f r0 :: (f <$> rows)))).2))
                      <$> grid (f r0).1 three_minutes
                            (grid_length (f r0).1 (f rn).1 three_minutes))).
    { rewrite Hrows, fmap_cons.
      apply (sample_ascending fuel (f r0) (f <$> rows) (f rn)).
      - exact Hasc.
      - change (last (f <$> r0 :: rows) = Some (f rn)).
        by rewrite fmap_last, Hlast.
      - done.
      - by apply Hgrid.
      - rewrite length_fmap. simpl in Hlen2. lia. }
    eexists. split.
    + rewrite mapM_cons, Hsample. cbn [mbind result_bind].
      rewrite Hdays'. reflexivity.
    + change (mjoin (?x :: ?l)) with (x ++ mjoin l).
      rewrite length_app, Hlen, fmap_cons, length_fmap, length_grid.
      cbn [sum_list sum_list_with]. f_equal.
      unfold day_grid_length. rewrite Hrows, Hlast. done.
Qed.

(** * The further properties at concrete tables *)

Local Open Scope Z_scope.

Lemma rount_ceil_minute_raises_witness :
  rount_ceil_minute 120000000 = AttributeError.
Proof. apply rount_ceil_minute_raises. reflexivity. Defined.

Lemma day_fits_two_days :
  ∀ g, g ∈ groupby trade_date two_days → day_fits 3 g.2.
Proof.
  intros g Hg. vm_compute in Hg.
  repeat (apply elem_of_cons in Hg as [->|Hg]); [| |by apply elem_of_nil in Hg].
  - repeat split; [repeat constructor; simpl; lia|simpl; lia|].
    intros r0 rn Hr0 Hrn. vm_compute in Hr0, Hrn. simplify_eq. vm_compute. lia.
  - repeat split; [repeat constructor|simpl; lia|].
    intros r0 rn Hr0 Hrn. vm_compute in Hr0, Hrn. simplify_eq. vm_compute. lia.
Defined.

Lemma mean_daily_volume_witness :
  ∃ rep,
    analyze_locals (λ x, x) 3 two_days = Ok rep
    ∧ mean_daily_vol rep
      = Some (Qc_of_Z (Zsum (trade_quantity <$> two_days))
              / Qc_of_nat (length (remove_dups (trade_date <$> two_days))))%Qc.
Proof.
  eexists. split; [vm_compute; reflexivity|].
  apply (mean_daily_volume (λ x, x) 3 two_days). vm_compute. reflexivity.
Defined.

Lemma daily_volume_order_witness :
  ∃ rep,
    analyze_locals (λ x, x) 3 two_days = Ok rep
    ∧ ∃ lo hi m med,
        min_daily_vol rep = Some lo
        ∧ max_daily_vol rep = Some hi
        ∧ mean_daily_vol rep = Some m
        ∧ median_daily_vol rep = Some med
        ∧ (lo ≤ hi)%Z
        ∧ (Qc_of_Z lo ≤ m)%Qc ∧ (m ≤ Qc_of_Z hi)%Qc
        ∧ (Qc_of_Z lo ≤ med)%Qc ∧ (med ≤ Qc_of_Z hi)%Qc.
Proof.
  eexists. split; [vm_compute; reflexivity|].
  apply (daily_volume_order (λ x, x) 3 two_days). vm_compute. reflexivity.
Defined.


Lemma inter_time_quartile_counts_witness :
  ∃ rep,
    analyze_locals (λ x, x) 3 two_days = Ok rep
    ∧ (N_inter_time_q1 rep ≤ N_inter_time_q2 rep
       ∧ N_inter_time_q2 rep ≤ N_inter_time_q3 rep
       ∧ N_inter_time_q3 rep + length (remove_dups (trade_date <$> two_days))
         ≤ length two_days)%nat.
Proof.
  eexists. split; [vm_compute; reflexivity|].
  apply (inter_time_quartile_counts (λ x, x) 3 two_days). vm_compute. reflexivity.
Defined.

Lemma inter_times_nonnegative_witness :
  Forall (λ x, 0 ≤ x)%Qc (s_inter_time two_days).
Proof.
  apply inter_times_nonnegative.
  intros g Hg. vm_compute in Hg.
  repeat (apply elem_of_cons in Hg as [->|Hg]); [| |by apply elem_of_nil in Hg].
  - repeat constructor; by vm_compute.
  - repeat constructor.
Defined.

Lemma daily_price_lists_shape_witness :
  ∃ rep,
    analyze_locals (λ x, x) 3 two_days = Ok rep
    ∧ length (daily_price_max_list rep)
      = length (remove_dups (trade_date <$> two_days))
    ∧ length (daily_price_min_list rep)
      = length (remove_dups (trade_date <$> two_days))
    ∧ ∀ i hi lo,
        daily_price_max_list rep !! i = Some hi →
        daily_price_min_list rep !! i = Some lo →
        lo ≤ hi ∧ hi mod 10000 = 0 ∧ lo mod 10000 = 0.
Proof.
  eexists. split; [vm_compute; reflexivity|].
  apply (daily_price_lists_shape (λ x, x) 3 two_days). vm_compute. reflexivity.
Defined.

Lemma analyze_sorted_days_witness :
  analyze (λ x, x) 3 two_days = Ok two_days.
Proof.
  apply analyze_sorted_days; [discriminate|apply day_fits_two_days].
Defined.

Lemma resampled_rows_are_trades_witness :
  ∃ res,
    df_trade_price_res 3 two_days = Ok res
    ∧ ∀ r, r ∈ res →
        ∃ tr, tr ∈ two_days ∧ r.2.1 = trade_price tr ∧ r.2.2 = trade_date tr.
Proof.
  eexists. split; [vm_compute; reflexivity|].
  apply (resampled_rows_are_trades 3 two_days). vm_compute. reflexivity.
Defined.

Lemma price_quartile_counts_strict_witness :
  ∃ rep,
    analyze_locals (λ x, x) 3 two_days = Ok rep
    ∧ (N_trade_price_q3 rep < length two_days)%nat.
Proof.
  eexists. split; [vm_compute; reflexivity|].
  apply (price_quartile_counts_strict (λ x, x) 3 two_days). vm_compute. reflexivity.
Defined.

Lemma script_prints_nothing_witness :
  script (λ x, x) (λ _, Ok two_days) 3
    ["analyze.py"; "trades.csv"; "more.csv"]%string
  = Run [] Finished.
Proof.
  apply (script_prints_nothing (λ x, x) (λ _, Ok two_days) 3 _ _ _ two_days).
  - reflexivity.
  - discriminate.
  - apply day_fits_two_days.
Defined.

Lemma resampled_table_length_witness :
  ∃ res,
    df_trade_price_res 3 two_days = Ok res
    ∧ length res
      = sum_list ((λ g, day_grid_length g.2) <$> groupby trade_date two_days).
Proof. apply resampled_table_length, day_fits_two_days. Defined.

(** X19.  Two rows out of order, the later one first: as soon as a second
    sampling time fits before the first row's timestamp, the cursor passes
    the second row and reads past the end of the table. *)
Theorem sample_two_rows_out_of_order {A : Type} fuel (r0 r1 : srow A) delta :
  r1.1 < r0.1 →
  0 < delta < r0.1 - r1.1 →
  (2 ≤ fuel)%nat →
  sample fuel [r0; r1] delta = Err IndexError.
Proof.
  intros Horder Hdelta Hfuel.
  destruct fuel as [|[|fuel]]; [lia..|].
  unfold sample. cbn [col_min col_max map foldl fst].
  rewrite Z.min_r, Z.max_l by lia.
  cbn [irow lookup list_lookup mbind result_bind].
  cbn [while outer_cond st_t]. rewrite bool_decide_true by lia.
  unfold outer_body at 1. cbn [st_t st_i st_last st_out].
  cbn [while]. unfold inner_cond at 1.
  cbn [irow lookup list_lookup mbind result_bind fst].
  rewrite bool_decide_false by lia.
  cbn [mbind result_bind fst snd app].
  cbn [while outer_cond st_t]. rewrite bool_decide_true by lia.
  unfold outer_body at 1. cbn [st_t st_i st_last st_out].
  cbn [while]. unfold inner_cond at 1.
  cbn [irow lookup list_lookup mbind result_bind fst].
  rewrite bool_decide_true by lia.
  unfold inner_body at 1.
  cbn [irow lookup list_lookup mbind result_bind fst snd].
  destruct fuel; reflexivity.
Qed.

Lemma sample_two_rows_out_of_order_witness :
  sample 2 [(10, 100); (5, 101)] 3 = Err IndexError.
Proof.
  apply (sample_two_rows_out_of_order 2 (10, 100) (5, 101) 3); simpl; lia.
Defined.
